(** * su_doku: the Sudoku grid, its backtracking solver and its generator

    A shallow embedding of [src/su_doku/sudoku.py].  The class [Sudoku] is a
    [numpy.ndarray] of [uint8] with two extra attributes; objects live in a
    store and are mutated in place, so the methods below are state
    transformers over that store. *)

From Stdlib Require Import ZArith Lia List Bool Arith Permutation Sorted.
From stdpp Require Import base list.
Import ListNotations.

Local Open Scope nat_scope.

(** ** NumPy values *)

(** [Unsigned = numpy.uint8]: converting an integer to it keeps the low
    eight bits. *)
Definition Unsigned (x : Z) : Z := (x mod 256)%Z.

(** The same conversion on a size, as [Unsigned(obj.shape[0])] does it in
    the NumPy releases the module was written for (later ones raise
    [OverflowError] above 255; the theorems below keep to sides up to 255,
    where both agree). *)
Definition Unsigned_nat (x : nat) : nat := x mod 256.

(** An integer array: its shape and its row-major buffer. *)
Record ndarray := mk_ndarray { shape : list nat; data : list Z }.

(** Number of rows and of columns of a two-dimensional array. *)
Definition nrows (a : ndarray) : nat := nth 0 (shape a) 0.
Definition ncols (a : ndarray) : nat := nth 1 (shape a) 0.

(** Buffer offset of [a[row, col]]. *)
Definition offset (a : ndarray) (cell : nat * nat) : nat :=
  fst cell * ncols a + snd cell.

(** Index pair of a buffer offset ([numpy.unravel_index]). *)
Definition unravel (a : ndarray) (k : nat) : nat * nat :=
  (k / ncols a, k mod ncols a).

(** [a[row, col]] for an index pair within the array.  Every index pair the
    solver uses comes from [find_empty] or from [randint(0, n)], hence is in
    range; NumPy raises [IndexError] on any other pair, which this
    definition does not model, so the properties below are stated for cells
    of the grid ([in_grid]). *)
Definition getitem (a : ndarray) (cell : nat * nat) : Z :=
  nth (offset a cell) (data a) 0%Z.

(** [a[row, col] = v], in place. *)
Definition setitem (a : ndarray) (cell : nat * nat) (v : Z) : ndarray :=
  {| shape := shape a; data := <[offset a cell := v]> (data a) |}.

(** [numpy.array(grid, dtype=Unsigned, copy=True)] on an array of another
    integer type: every element is converted. *)
Definition astype_Unsigned (a : ndarray) : ndarray :=
  {| shape := shape a; data := map Unsigned (data a) |}.

(** [numpy.zeros((n, n), dtype=Unsigned)]. *)
Definition zeros (n : nat) : ndarray :=
  {| shape := [n; n]; data := repeat 0%Z (n * n) |}.

(** [numpy.arange(lo, hi, dtype=Unsigned)]; [hi] is [self.n + 1], at most
    256, so every element is a [uint8] value. *)
Definition arange (lo hi : nat) : list Z := map Z.of_nat (seq lo (hi - lo)).

(** The indices selected by the slice [lo:hi] on an axis of length [len]. *)
Definition slice (lo hi len : nat) : list nat := seq lo (Nat.min hi len - lo).

(** [numpy.array_equal]. *)
Definition array_equal (a b : ndarray) : bool :=
  bool_decide (shape a = shape b) && bool_decide (data a = data b).

(** ** The class *)

(** A [Sudoku] object: the [uint8] array with the attributes [n] and [sr]. *)
Record Sudoku := mk_Sudoku { grid : ndarray; n : nat; sr : nat }.

(** The failures of the module.  [InvalidShape], [NotPerfectSquare] and
    [ValueOutOfRange] are the assertions of [__new__] ("Grid is not
    two-dimensional" / "Grid is not square", "N is not a perfect square",
    "Grid contains invalid digits"); [IncompleteSeedGrid] is the
    [ValueError] of [generate], [InvalidRemovalCount] its assertion on [k],
    [GenerationExhausted] the [RuntimeError] of [generate_unique];
    [IndexError] is raised by [obj.shape[0]] on a zero-dimensional input. *)
Inductive exn :=
| InvalidShape | NotPerfectSquare | ValueOutOfRange
| IncompleteSeedGrid | InvalidRemovalCount | GenerationExhausted
| IndexError.

(** Lines 39-50 of [__new__], on the converted array [obj]. *)
Definition Sudoku_view (obj : ndarray) (_verify : bool) : exn + Sudoku :=
  match shape obj with
  | [] => inl IndexError
  | n0 :: _ =>
      let round_sr := Unsigned_nat (Nat.sqrt n0) in
      let self := {| grid := obj; n := Unsigned_nat n0; sr := round_sr |} in
      if _verify then
        if negb (length (shape obj) =? 2) then inl InvalidShape
        else if negb (n0 =? ncols obj) then inl InvalidShape
        else if negb (round_sr * round_sr =? n0) then inl NotPerfectSquare
        else if negb (forallb (fun v => (0 <=? v)%Z && (v <=? Z.of_nat n0)%Z)
                        (data obj))
        then inl ValueOutOfRange
        else inr self
      else inr self
  end.

(** [Sudoku(grid, _verify)] on caller-supplied integers. *)
Definition Sudoku_new (a : ndarray) (_verify : bool) : exn + Sudoku :=
  Sudoku_view (astype_Unsigned a) _verify.

(** [Sudoku(self, _verify=False)]: the source already is a [uint8] array,
    so its buffer is copied as it is; [n] and [sr] are set again from the
    shape. *)
Definition Sudoku_copy (self : Sudoku) : exn + Sudoku :=
  Sudoku_view (grid self) false.

Definition Sudoku_eq (a b : Sudoku) : bool := array_equal (grid a) (grid b).

(** [self[cell] = v]. *)
Definition Sudoku_set (self : Sudoku) (cell : nat * nat) (v : Z) : Sudoku :=
  {| grid := setitem (grid self) cell v; n := n self; sr := sr self |}.

(** ** Constraint checks (lines 68-126) *)

Definition contains (digit : Z) (l : list Z) : bool := existsb (Z.eqb digit) l.

(** [self[row, :]] *)
Definition row_of (self : Sudoku) (row : nat) : list Z :=
  take (ncols (grid self)) (drop (row * ncols (grid self)) (data (grid self))).

(** [self[:, col]] *)
Definition col_of (self : Sudoku) (col : nat) : list Z :=
  map (fun r => getitem (grid self) (r, col)) (seq 0 (nrows (grid self))).

(** [self.box(row, col)], flattened in row-major order. *)
Definition box (self : Sudoku) (row col : nat) : list Z :=
  let r := row / sr self * sr self in
  let c := col / sr self * sr self in
  flat_map (fun i => map (fun j => getitem (grid self) (i, j))
                       (slice c (c + sr self) (ncols (grid self))))
           (slice r (r + sr self) (nrows (grid self))).

Definition row_safe (self : Sudoku) (row : nat) (digit : Z) : bool :=
  negb (contains digit (row_of self row)).

Definition col_safe (self : Sudoku) (col : nat) (digit : Z) : bool :=
  negb (contains digit (col_of self col)).

Definition box_safe (self : Sudoku) (row col : nat) (digit : Z) : bool :=
  negb (contains digit (box self row col)).

Definition is_safe (self : Sudoku) (row col : nat) (digit : Z) : bool :=
  row_safe self row digit && col_safe self col digit
  && box_safe self row col digit.

(** [numpy.argwhere(self == 0)], in row-major order. *)
Definition empty_cells (self : Sudoku) : list (nat * nat) :=
  map (unravel (grid self))
      (List.filter (fun k => (nth k (data (grid self)) 0 =? 0)%Z)
              (seq 0 (length (data (grid self))))).

Definition find_empty (self : Sudoku) : option (nat * nat) :=
  head (empty_cells self).

Definition candidates (self : Sudoku) (cell : nat * nat) : list Z :=
  List.filter (fun candidate => is_safe self (fst cell) (snd cell) candidate)
              (arange 1 (n self + 1)).

(** Number of empty cells: the depth bound of the searches. *)
Definition count_empty (self : Sudoku) : nat :=
  length (List.filter (fun v => (v =? 0)%Z) (data (grid self))).

(** ** The random source

    [numpy.random] is used twice: [shuffle] permutes the candidates of a
    cell, and [randint(0, n, size=2)] draws an index pair.  Both are taken
    as operations on an explicit generator state; nothing is assumed of
    them but that a shuffle is a permutation and that a draw is in range. *)
Class RandomSource := {
  rng : Type;
  shuffle : rng -> list Z -> list Z * rng;
  randint : rng -> nat -> (nat * nat) * rng;
  shuffle_perm : forall s l, Permutation l (fst (shuffle s l));
  randint_range : forall s n, 0 < n ->
    fst (fst (randint s n)) < n /\ snd (fst (randint s n)) < n
}.

(** Draws that walk the grid in row-major order, starting at the cell
    numbered by the state. *)
Definition walk (s n : nat) : (nat * nat) * nat :=
  ((s / n mod n, s mod n), S s).

(** Draws that are all [(0, 0)]. *)
Definition stuck (s : unit) (n : nat) : (nat * nat) * unit := ((0, 0), s).

(** ** The object store *)

(** References to objects are their positions in the store. *)
Abbreviation ref := nat (only parsing).

Definition no_object : Sudoku :=
  {| grid := {| shape := []; data := [] |}; n := 0; sr := 0 |}.

(** The result of a [for] loop whose body may [return]. *)
Inductive flow (S R : Type) := Continue (s : S) | Return (r : R).
Arguments Continue {S R} s.
Arguments Return {S R} r.

Section Methods.
Context {RS : RandomSource}.

(** The store holds every [Sudoku] object created so far, at its
    reference, and the state of the random generator. *)
Record world := mk_world { heap : list Sudoku; rand : rng }.

(** A call returns a value and a new store, raises, or exceeds the
    iteration bound given to a [while True] loop. *)
Inductive outcome (A : Type) :=
| Ok (a : A) (w : world)
| Raise (e : exn)
| Timeout.
Arguments Ok {A} a w.
Arguments Raise {A} e.
Arguments Timeout {A}.

Definition M (A : Type) : Type := world -> outcome A.

Definition ret {A} (a : A) : M A := fun w => Ok a w.

Definition bind {A B} (m : M A) (k : A -> M B) : M B :=
  fun w => match m w with
           | Ok a w' => k a w'
           | Raise e => Raise e
           | Timeout => Timeout
           end.

Notation "x <-- m ;; k" := (bind m (fun x => k))
  (at level 100, m at next level, k at level 200, right associativity).
Notation "m ;;; k" := (bind m (fun _ => k))
  (at level 100, k at level 200, right associativity).

Definition raise {A} (e : exn) : M A := fun _ => Raise e.

Definition lift {A} (r : exn + A) : M A :=
  match r with inl e => raise e | inr a => ret a end.

Definition obj (w : world) (r : ref) : Sudoku := nth r (heap w) no_object.

(** Reading an object, creating one, and writing a cell of one. *)
Definition deref (r : ref) : M Sudoku := fun w => Ok (obj w r) w.

Definition alloc (s : Sudoku) : M ref :=
  fun w => Ok (length (heap w)) {| heap := heap w ++ [s]; rand := rand w |}.

Definition assign (r : ref) (cell : nat * nat) (v : Z) : M unit :=
  fun w => Ok tt {| heap := <[r := Sudoku_set (obj w r) cell v]> (heap w);
                    rand := rand w |}.

Definition np_shuffle (l : list Z) : M (list Z) :=
  fun w => let (l', s) := shuffle (rand w) l in
           Ok l' {| heap := heap w; rand := s |}.

Definition np_randint (n : nat) : M (nat * nat) :=
  fun w => let (cell, s) := randint (rand w) n in
           Ok cell {| heap := heap w; rand := s |}.

(** A [for] loop whose body may [return]. *)
Fixpoint for_in {A S R} (l : list A) (body : A -> S -> M (flow S R)) (s : S)
  : M (flow S R) :=
  match l with
  | [] => ret (Continue s)
  | x :: l' =>
      f <-- body x s ;;
      match f with
      | Continue s' => for_in l' body s'
      | Return r => ret (Return r)
      end
  end.

(** [Sudoku(self, _verify=False)] as a new object. *)
Definition copy_of (self : ref) : M ref :=
  s <-- deref self ;; c <-- lift (Sudoku_copy s) ;; alloc c.

(** [Sudoku.empty(n)] *)
Definition empty (n : nat) : M ref :=
  s <-- lift (Sudoku_new (zeros n) true) ;; alloc s.

(** [random_candidates]: the candidates are collected first, then
    shuffled. *)
Definition random_candidates (self : ref) (cell : nat * nat) : M (list Z) :=
  s <-- deref self ;; np_shuffle (candidates s cell).

(** [solve_inplace], lines 136-147.  [fuel] bounds the recursion depth;
    [solve_inplace] below supplies one more than the number of empty
    cells. *)
Fixpoint solve_inplace_fuel (fuel : nat) (self : ref) : M (option ref) :=
  match fuel with
  | 0 => fun _ => Timeout
  | S fuel' =>
      s <-- deref self ;;
      match find_empty s with
      | None => ret (Some self)
      | Some empty_cell =>
          cands <-- random_candidates self empty_cell ;;
          r <-- for_in cands
                  (fun candidate (_ : unit) =>
                     assign self empty_cell candidate ;;;
                     solution <-- solve_inplace_fuel fuel' self ;;
                     match solution with
                     | Some sol => ret (Return sol)
                     | None => ret (Continue tt)
                     end) tt ;;
          match r with
          | Return sol => ret (Some sol)
          | Continue _ => assign self empty_cell 0%Z ;;; ret None
          end
      end
  end.

Definition solve_inplace (self : ref) : M (option ref) :=
  fun w => solve_inplace_fuel (S (count_empty (obj w self))) self w.

(** [solutions.add(self)] on a set of objects compared by [__eq__]. *)
Definition set_add (self : ref) (solutions : list ref) : M (list ref) :=
  fun w =>
    Ok (if existsb (fun r => Sudoku_eq (obj w r) (obj w self)) solutions
        then solutions else self :: solutions) w.

(** The loop shared by [_solve_all_helper] and [_is_unique_helper]: the
    generator [self.candidates(row, col)] tests each digit of
    [arange(1, n + 1)] against the state [self] has when the digit is
    asked for. *)
Definition for_candidates {S R} (self : ref) (cell : nat * nat)
    (body : Z -> S -> M (flow S R)) (s0 : S) : M (flow S R) :=
  s <-- deref self ;;
  for_in (arange 1 (n s + 1))
    (fun candidate acc =>
       cur <-- deref self ;;
       if is_safe cur (fst cell) (snd cell) candidate
       then body candidate acc
       else ret (Continue acc)) s0.

(** [_solve_all_helper], lines 157-163; the set [solutions] is threaded. *)
Fixpoint _solve_all_helper (fuel : nat) (self : ref) (solutions : list ref)
  : M (list ref) :=
  match fuel with
  | 0 => fun _ => Timeout
  | S fuel' =>
      s <-- deref self ;;
      match find_empty s with
      | None => set_add self solutions
      | Some empty_cell =>
          r <-- for_candidates (R := Empty_set) self empty_cell
                  (fun candidate sols =>
                     copy <-- copy_of self ;;
                     assign copy empty_cell candidate ;;;
                     sols' <-- _solve_all_helper fuel' copy sols ;;
                     ret (Continue sols')) solutions ;;
          match r with
          | Continue sols => ret sols
          | Return e => match e with end
          end
      end
  end.

(** [solve_all], lines 149-155. *)
Definition solve_all (self : ref) : M (list ref) :=
  fun w => _solve_all_helper (S (count_empty (obj w self))) self [] w.

(** [has_solution], lines 165-169. *)
Definition has_solution (self : ref) : M bool :=
  copy <-- copy_of self ;;
  r <-- solve_inplace copy ;;
  ret (match r with Some _ => true | None => false end).

(** [_is_unique_helper], lines 177-186. *)
Definition _is_unique_helper (self : ref) (solutions : list ref) : M bool :=
  s <-- deref self ;;
  match find_empty s with
  | None =>
      sols <-- set_add self solutions ;;
      ret (length sols =? 1)
  | Some empty_cell =>
      r <-- for_candidates self empty_cell
              (fun candidate sols =>
                 copy <-- copy_of self ;;
                 assign copy empty_cell candidate ;;;
                 sols' <-- (fun w => _solve_all_helper
                                       (S (count_empty (obj w copy))) copy sols w) ;;
                 if 1 <? length sols' then ret (Return false)
                 else ret (Continue sols')) solutions ;;
      match r with
      | Return b => ret b
      | Continue _ => ret true
      end
  end.

(** [is_unique], lines 171-175. *)
Definition is_unique (self : ref) : M bool := _is_unique_helper self [].

(** The rejection loop of [generate], lines 211-214. *)
Fixpoint sample_occupied (fuel : nat) (sudoku : ref) (n : nat)
  : M (nat * nat) :=
  match fuel with
  | 0 => fun _ => Timeout
  | S fuel' =>
      cell <-- np_randint n ;;
      s <-- deref sudoku ;;
      if negb (getitem (grid s) cell =? 0)%Z then ret cell
      else sample_occupied fuel' sudoku n
  end.

(** One removal, lines 211-215: draw until the cell is filled, empty it. *)
Definition remove_cell (fuel : nat) (sudoku : ref) (n : nat) : M unit :=
  cell <-- sample_occupied fuel sudoku n ;;
  assign sudoku cell 0%Z.

(** The removals of [generate], lines 210-215. *)
Definition remove_cells (fuel : nat) (sudoku : ref) (n : nat) (count : list nat)
  : M (flow unit Empty_set) :=
  for_in count
    (fun _ (_ : unit) => remove_cell fuel sudoku n ;;; ret (Continue tt)) tt.

(** [generate], lines 188-217.  [fuel] bounds each rejection loop. *)
Definition generate (fuel : nat) (n : nat) (k : Z) (seed : option ndarray)
  : M ref :=
  sudoku <-- match seed with
             | None => empty n
             | Some g =>
                 s <-- lift (Sudoku_new g true) ;;
                 match find_empty s with
                 | Some _ => raise IncompleteSeedGrid
                 | None => alloc s
                 end
             end ;;
  if negb ((0 <=? k)%Z && (k <=? Z.of_nat (n ^ 2))%Z)
  then raise InvalidRemovalCount
  else
    solve_inplace sudoku ;;;
    remove_cells fuel sudoku n (seq 0 (Z.to_nat k)) ;;;
    ret sudoku.

(** The loop of [generate_unique], lines 233-252. *)
Fixpoint generate_unique_loop (fuel gfuel : nat) (attempts : Z) (n : nat)
    (k : Z) (seed : option ndarray) (attempt_limit : Z) : M ref :=
  match fuel with
  | 0 => fun _ => Timeout
  | S fuel' =>
      let attempts := (attempts + 1)%Z in
      if (attempts >=? attempt_limit)%Z then raise GenerationExhausted
      else
        sudoku <-- generate gfuel n k seed ;;
        if (k =? 0)%Z then ret sudoku
        else
          unique <-- is_unique sudoku ;;
          if unique then ret sudoku
          else generate_unique_loop fuel' gfuel attempts n k seed attempt_limit
  end.

(** [generate_unique], lines 219-252. *)
Definition generate_unique (fuel : nat) (n : nat) (k : Z)
    (seed : option ndarray) (attempt_limit : Z) : M ref :=
  generate_unique_loop fuel fuel 0%Z n k seed attempt_limit.

End Methods.

Arguments Ok {RS A} a w.
Arguments Raise {RS A} e.
Arguments Timeout {RS A}.

(** ** Two concrete random sources

    [walk_source] reverses on [shuffle] and draws the cells in turn;
    [stuck_source] keeps the order on [shuffle] and always draws [(0, 0)]. *)

Lemma walk_range (s n : nat) : 0 < n ->
  fst (fst (walk s n)) < n /\ snd (fst (walk s n)) < n.
Proof.
  intros Hn. unfold walk. simpl. split; apply Nat.mod_upper_bound; lia.
Qed.

Lemma stuck_range (s : unit) (n : nat) : 0 < n ->
  fst (fst (stuck s n)) < n /\ snd (fst (stuck s n)) < n.
Proof. intros Hn. simpl. lia. Qed.

Definition walk_source : RandomSource := {|
  rng := nat;
  shuffle := fun s l => (rev l, s);
  randint := walk;
  shuffle_perm := fun _ l => Permutation_rev l;
  randint_range := walk_range
|}.

Definition stuck_source : RandomSource := {|
  rng := unit;
  shuffle := fun s l => (l, s);
  randint := stuck;
  shuffle_perm := fun _ l => Permutation_refl l;
  randint_range := stuck_range
|}.

(** ** Properties of grids *)

(** The invariants of a constructed grid whose side fits the cell type:
    an [n]x[n] array, [n] the square of [sr]. *)
Definition well_formed (s : Sudoku) : bool :=
  bool_decide (shape (grid s) = [n s; n s])
  && (length (data (grid s)) =? n s * n s)
  && (n s =? sr s * sr s) && (n s <=? 255).

Definition digits_in_range (s : Sudoku) : bool :=
  forallb (fun v => (0 <=? v)%Z && (v <=? Z.of_nat (n s))%Z) (data (grid s)).

(** No digit other than 0 occurs twice in [l]. *)
Fixpoint no_repeat (l : list Z) : bool :=
  match l with
  | [] => true
  | x :: l' => ((x =? 0)%Z || negb (contains x l')) && no_repeat l'
  end.

(** The cells of the rectangle with corner [(r0, c0)], [h] rows and [w]
    columns, in row-major order. *)
Definition rect (r0 h c0 w : nat) : list (nat * nat) :=
  list_prod (seq r0 h) (seq c0 w).

(** The cells of row [r] and of column [c] of a grid of side [N], and the
    cells of the block in block row [i] and block column [j] of a grid whose
    blocks have side [m].  These are written with coordinates only: they do
    not go through [row_of], [col_of] or [box]. *)
Definition row_cells (N r : nat) : list (nat * nat) := rect r 1 0 N.

Definition col_cells (N c : nat) : list (nat * nat) := rect 0 N c 1.

Definition block_cells (m i j : nat) : list (nat * nat) :=
  rect (i * m) m (j * m) m.

(** The digits a grid holds at the given cells. *)
Definition digits_at (s : Sudoku) (cells : list (nat * nat)) : list Z :=
  map (getitem (grid s)) cells.

(** No digit is repeated in a row, in a column or in one of the [sr] x [sr]
    blocks. *)
Definition consistent (s : Sudoku) : bool :=
  forallb (fun r => no_repeat (digits_at s (row_cells (n s) r))) (seq 0 (n s))
  && forallb (fun c => no_repeat (digits_at s (col_cells (n s) c))) (seq 0 (n s))
  && forallb (fun i =>
                forallb (fun j => no_repeat (digits_at s (block_cells (sr s) i j)))
                        (seq 0 (sr s)))
             (seq 0 (sr s)).

(** A valid grid: the invariants hold and the filled cells respect the
    three constraints. *)
Definition valid (s : Sudoku) : bool :=
  well_formed s && digits_in_range s && consistent s.

(** A complete grid has no empty cell. *)
Definition complete (s : Sudoku) : Prop := ~ In 0%Z (data (grid s)).

Definition each_digit_once (N : nat) (l : list Z) : Prop :=
  forall d : Z, (1 <= d <= Z.of_nat N)%Z -> count_occ Z.eq_dec l d = 1.

(** Every row, every column and every [sr] x [sr] block holds each digit of
    [1..n] exactly once. *)
Definition solved (s : Sudoku) : Prop :=
  (forall r, r < n s -> each_digit_once (n s) (digits_at s (row_cells (n s) r))) /\
  (forall c, c < n s -> each_digit_once (n s) (digits_at s (col_cells (n s) c))) /\
  (forall i j, i < sr s -> j < sr s ->
     each_digit_once (n s) (digits_at s (block_cells (sr s) i j))).

Definition in_grid (N : nat) (cell : nat * nat) : Prop :=
  fst cell < N /\ snd cell < N.

(** [s] has the digits of [g] wherever [g] is filled. *)
Definition agrees (g s : Sudoku) : Prop :=
  forall cell, in_grid (n g) cell -> getitem (grid g) cell <> 0%Z ->
    getitem (grid s) cell = getitem (grid g) cell.

(** [s] is a completion of [g]: a solved grid of the same size that agrees
    with [g] on its filled cells. *)
Definition completion (g s : Sudoku) : Prop :=
  well_formed s = true /\ n s = n g /\ sr s = sr g /\ solved s /\ agrees g s.

(** ** Vocabulary of the proofs *)

(** The test behind [self == 0]. *)
Definition is_zero (v : Z) : bool := (v =? 0)%Z.

(** Two cells see each other: same row, same column or same box. *)
Definition related (m : nat) (p q : nat * nat) : Prop :=
  fst p = fst q \/ snd p = snd q \/
  (fst p / m = fst q / m /\ snd p / m = snd q / m).

(** No filled cell has its digit in another cell it sees. *)
Definition distinct_peers (s : Sudoku) : Prop :=
  forall p q, in_grid (n s) p -> in_grid (n s) q -> p <> q ->
    related (sr s) p q -> getitem (grid s) p <> 0%Z ->
    getitem (grid s) p <> getitem (grid s) q.

(** No cell seen from [p] holds [d]. *)
Definition safe_at (s : Sudoku) (p : nat * nat) (d : Z) : Prop :=
  forall q, in_grid (n s) q -> related (sr s) p q -> getitem (grid s) q <> d.

(** All cells hold a digit of [1..n]. *)
Definition digits_filled (s : Sudoku) : Prop :=
  forall p, in_grid (n s) p ->
    (1 <= getitem (grid s) p <= Z.of_nat (n s))%Z.

(** All cells hold 0 or a digit of [1..n]. *)
Definition cells_in_range (s : Sudoku) : Prop :=
  forall p, in_grid (n s) p -> (0 <= getitem (grid s) p <= Z.of_nat (n s))%Z.

(** [fills g g']: [g'] is reached from [g] by filling, any number of times,
    the first empty cell with one of its candidates.  This is the set of
    grids a search started on [g] can visit. *)
Inductive fills : Sudoku -> Sudoku -> Prop :=
| fills_refl (g : Sudoku) : fills g g
| fills_step (g g' : Sudoku) (cell : nat * nat) (d : Z) :
    find_empty g = Some cell -> In d (candidates g cell) ->
    fills (Sudoku_set g cell d) g' -> fills g g'.

(** [f] assigns a digit to every cell, keeps the digits of [g], and gives
    different digits to cells that see each other. *)
Definition solution_of (g : Sudoku) (f : nat * nat -> Z) : Prop :=
  (forall p, in_grid (n g) p -> (1 <= f p <= Z.of_nat (n g))%Z) /\
  (forall p q, in_grid (n g) p -> in_grid (n g) q -> p <> q ->
     related (sr g) p q -> f p <> f q) /\
  (forall p, in_grid (n g) p -> getitem (grid g) p <> 0%Z ->
     f p = getitem (grid g) p).

(** What a call of [solve_inplace] on [g] returns and leaves in [self]:
    on success a complete grid filled from [g]; on failure [g] itself, and
    then [g] has no completion. *)
Definition solve_post (g : Sudoku) (self : ref) (res : option ref)
    (g' : Sudoku) : Prop :=
  match res with
  | Some r => r = self /\ fills g g' /\ find_empty g' = None
  | None => g' = g /\ (well_formed g = true -> forall f, ~ solution_of g f)
  end.

(** The digit at [(r, c)] of the shifted-rows grid of box side [m]: row
    [r] is the first row rotated by [(r mod m) * m + r / m]. *)
Definition pattern (m : nat) (p : nat * nat) : Z :=
  (Z.of_nat (((fst p mod m) * m + fst p / m + snd p) mod (m * m)) + 1)%Z.

(** The state of the object [Sudoku.empty(m * m)] creates. *)
Definition empty_grid (m : nat) : Sudoku :=
  {| grid := zeros (m * m); n := m * m; sr := m |}.

(** The array of the object at [r]. *)
Definition content (h : list Sudoku) (r : nat) : ndarray := grid (nth r h no_object).

(** The object at [r] is a complete grid filled from [g]. *)
Definition recorded (g : Sudoku) (h : list Sudoku) (r : nat) : Prop :=
  r < length h /\ fills g (nth r h no_object) /\ complete (nth r h no_object).

(** [g] has at most one completion reachable by filling. *)
Definition at_most_one (g : Sudoku) : Prop :=
  forall o1 o2, fills g o1 -> complete o1 -> fills g o2 -> complete o2 ->
    grid o1 = grid o2.






(** A valid grid without completion: the first cell sees 1, 2, 3 and 4. *)
Definition bad_grid : Sudoku :=
  {| grid := {| shape := [4; 4];
                data := [0; 1; 2; 3;  0; 0; 0; 0;  4; 0; 0; 0;  0; 0; 0; 0]%Z |};
     n := 4; sr := 2 |}.

(** A grid of the right shape and digits that breaks every constraint. *)
Definition ones_grid : Sudoku :=
  {| grid := {| shape := [4; 4]; data := repeat 1%Z 16 |}; n := 4; sr := 2 |}.

(** A solved grid with its last cell emptied. *)
Definition one_gap : Sudoku :=
  {| grid := {| shape := [4; 4];
                data := [1; 2; 3; 4;  3; 4; 1; 2;  2; 1; 4; 3;  4; 3; 2; 0]%Z |};
     n := 4; sr := 2 |}.

(** An empty store, and a store holding one grid, with [walk_source]. *)
Definition start : world (RS := walk_source) := @mk_world walk_source [] 0.

Definition holding (g : Sudoku) : world (RS := walk_source) :=
  @mk_world walk_source [g] 0.

(** [q] comes before [p] in row-major order. *)
Definition before (q p : nat * nat) : Prop :=
  fst q < fst p \/ (fst q = fst p /\ snd q < snd p).

(** [g] is [g0] with some cells emptied. *)
Definition carved_from (g0 g : Sudoku) : Prop :=
  well_formed g = true /\ n g = n g0 /\ sr g = sr g0
  /\ forall q, in_grid (n g0) q ->
       getitem (grid g) q = 0%Z \/ getitem (grid g) q = getitem (grid g0) q.

(** * Facts about arrays *)

Section ArrayFacts.

Lemma unravel_offset (a : ndarray) (k : nat) : offset a (unravel a k) = k.
Proof.
  unfold offset, unravel. simpl.
  pose proof (Nat.div_mod_eq k (ncols a)). lia.
Qed.

Lemma offset_inj (a : ndarray) (p q : nat * nat) :
  snd p < ncols a -> snd q < ncols a -> offset a p = offset a q -> p = q.
Proof.
  destruct p as [r c], q as [r' c']. unfold offset. simpl. intros Hc Hc' E.
  assert (r = r') by nia. subst. f_equal. lia.
Qed.

Lemma offset_setitem (a : ndarray) (p q : nat * nat) (v : Z) :
  offset (setitem a p v) q = offset a q.
Proof. reflexivity. Qed.

Lemma getitem_setitem_eq (a : ndarray) (p : nat * nat) (v : Z) :
  offset a p < length (data a) -> getitem (setitem a p v) p = v.
Proof.
  intros H. unfold getitem. rewrite offset_setitem.
  apply nth_lookup_Some. simpl. by apply list_lookup_insert_eq.
Qed.

Lemma getitem_setitem_ne (a : ndarray) (p q : nat * nat) (v : Z) :
  offset a p <> offset a q -> getitem (setitem a p v) q = getitem a q.
Proof.
  intros H. unfold getitem. rewrite offset_setitem.
  rewrite !nth_lookup. simpl. by rewrite list_lookup_insert_ne.
Qed.

Lemma setitem_setitem (a : ndarray) (p : nat * nat) (v v' : Z) :
  setitem (setitem a p v) p v' = setitem a p v'.
Proof.
  unfold setitem at 1. rewrite offset_setitem. unfold setitem. simpl.
  f_equal. apply list_insert_insert_eq.
Qed.

Lemma setitem_same (a : ndarray) (p : nat * nat) :
  getitem a p = 0%Z -> setitem a p 0%Z = a.
Proof.
  destruct a as [sh d]. unfold getitem, setitem. simpl.
  generalize (offset {| shape := sh; data := d |} p). intros k H.
  f_equal. apply list_insert_id'. intros Hlt.
  destruct (nth_lookup_or_length d k 0%Z) as [E|E]; [| lia].
  by rewrite E, H.
Qed.

End ArrayFacts.

(** * Facts about empty cells *)

Section EmptyCells.

Lemma zeros_insert_fill (l : list Z) (k : nat) (d : Z) :
  k < length l -> nth k l 0%Z = 0%Z -> d <> 0%Z ->
  S (length (List.filter is_zero (<[k:=d]> l))) = length (List.filter is_zero l).
Proof.
  revert k. induction l as [|x l IH]; intros k Hk Hz Hd; simpl in *; [lia|].
  destruct k as [|k]; simpl.
  - subst x. unfold is_zero at 1 3. simpl.
    destruct (Z.eqb_spec d 0); [contradiction | reflexivity].
  - destruct (is_zero x); simpl; rewrite <- (IH k); auto; lia.
Qed.

Lemma zeros_insert_clear (l : list Z) (k : nat) :
  nth k l 0%Z <> 0%Z ->
  length (List.filter is_zero (<[k:=0%Z]> l)) = S (length (List.filter is_zero l)).
Proof.
  revert k. induction l as [|x l IH]; intros k Hz; simpl in *.
  - destruct k; contradiction.
  - destruct k as [|k]; simpl.
    + unfold is_zero at 2. destruct (Z.eqb_spec x 0); [contradiction | reflexivity].
    + destruct (is_zero x); simpl; rewrite (IH k); auto.
Qed.

Lemma find_empty_Some (s : Sudoku) (cell : nat * nat) :
  find_empty s = Some cell ->
  offset (grid s) cell < length (data (grid s)) /\ getitem (grid s) cell = 0%Z /\
  exists k, cell = unravel (grid s) k /\ k < length (data (grid s)).
Proof.
  unfold find_empty, empty_cells. intros H.
  destruct (List.filter _ _) as [|k ks] eqn:E; [discriminate|].
  simpl in H. injection H as <-.
  assert (Hin : In k (List.filter (fun k => (nth k (data (grid s)) 0 =? 0)%Z)
                        (seq 0 (length (data (grid s)))))) by (rewrite E; left; reflexivity).
  apply filter_In in Hin. destruct Hin as [Hs Hz]. apply in_seq in Hs.
  apply Z.eqb_eq in Hz. unfold getitem. rewrite unravel_offset.
  repeat split; [lia | assumption | exists k; split; [reflexivity | lia]].
Qed.

Lemma find_empty_None (s : Sudoku) : find_empty s = None <-> complete s.
Proof.
  unfold find_empty, empty_cells, complete. split.
  - intros H Hin. apply (In_nth _ _ 0%Z) in Hin. destruct Hin as [k [Hk Hz]].
    destruct (List.filter _ _) as [|k' ks] eqn:E; [|discriminate].
    assert (Hin : In k (List.filter (fun k => (nth k (data (grid s)) 0 =? 0)%Z)
                          (seq 0 (length (data (grid s)))))).
    { apply filter_In. split; [apply in_seq; lia | by apply Z.eqb_eq]. }
    rewrite E in Hin. destruct Hin.
  - intros H. destruct (List.filter _ _) as [|k ks] eqn:E; [reflexivity|].
    exfalso. apply H.
    assert (Hin : In k (List.filter (fun k => (nth k (data (grid s)) 0 =? 0)%Z)
                          (seq 0 (length (data (grid s)))))) by (rewrite E; left; reflexivity).
    apply filter_In in Hin. destruct Hin as [Hs Hz]. apply in_seq in Hs.
    apply Z.eqb_eq in Hz. rewrite <- Hz. apply nth_In. lia.
Qed.

Lemma count_empty_fill (s : Sudoku) (cell : nat * nat) (d : Z) :
  find_empty s = Some cell -> d <> 0%Z ->
  S (count_empty (Sudoku_set s cell d)) = count_empty s.
Proof.
  intros H Hd. apply find_empty_Some in H. destruct H as [Hlt [Hz _]].
  unfold count_empty, Sudoku_set. simpl.
  by apply (zeros_insert_fill (data (grid s))).
Qed.

Lemma count_empty_clear (s : Sudoku) (cell : nat * nat) :
  getitem (grid s) cell <> 0%Z ->
  count_empty (Sudoku_set s cell 0%Z) = S (count_empty s).
Proof.
  intros H. unfold count_empty, Sudoku_set. simpl.
  by apply (zeros_insert_clear (data (grid s))).
Qed.

Lemma Sudoku_set_set (s : Sudoku) (cell : nat * nat) (v v' : Z) :
  Sudoku_set (Sudoku_set s cell v) cell v' = Sudoku_set s cell v'.
Proof. unfold Sudoku_set. simpl. by rewrite setitem_setitem. Qed.

Lemma Sudoku_set_same (s : Sudoku) (cell : nat * nat) :
  getitem (grid s) cell = 0%Z -> Sudoku_set s cell 0%Z = s.
Proof.
  intros H. destruct s as [g N m]. unfold Sudoku_set. simpl in *.
  by rewrite setitem_same.
Qed.

Lemma candidates_nonzero (s : Sudoku) (cell : nat * nat) (d : Z) :
  In d (candidates s cell) -> (1 <= d <= Z.of_nat (n s))%Z.
Proof.
  unfold candidates, arange. intros H. apply filter_In in H.
  destruct H as [H _]. apply in_map_iff in H. destruct H as [k [<- Hk]].
  apply in_seq in Hk. lia.
Qed.

End EmptyCells.

(** * Rows, columns and boxes as lists of cells *)

Section Cells.

Lemma in_rect (r0 h c0 w : nat) (q : nat * nat) :
  In q (rect r0 h c0 w) <->
  (r0 <= fst q < r0 + h) /\ (c0 <= snd q < c0 + w).
Proof.
  destruct q as [a b]. unfold rect. rewrite in_prod_iff, !in_seq. reflexivity.
Qed.

Lemma NoDup_list_prod {A B} (l1 : list A) (l2 : list B) :
  List.NoDup l1 -> List.NoDup l2 -> List.NoDup (list_prod l1 l2).
Proof.
  intros H1 H2. induction H1 as [|x l1 Hx H1 IH]; simpl; [constructor|].
  apply List.NoDup_app.
  - apply NoDup_map_NoDup_ForallPairs; [|assumption].
    intros a b _ _ E. congruence.
  - assumption.
  - intros [a b] Ha Hb. apply in_map_iff in Ha. destruct Ha as [y [E _]].
    apply in_prod_iff in Hb. destruct Hb as [Hb _]. congruence.
Qed.

Lemma NoDup_rect (r0 h c0 w : nat) : List.NoDup (rect r0 h c0 w).
Proof. apply NoDup_list_prod; apply seq_NoDup. Qed.

Lemma length_rect (r0 h c0 w : nat) : length (rect r0 h c0 w) = h * w.
Proof. unfold rect. by rewrite length_prod, !length_seq. Qed.

Lemma map_list_prod {C} (f : nat * nat -> C) (l1 l2 : list nat) :
  flat_map (fun i => map (fun j => f (i, j)) l2) l1 = map f (list_prod l1 l2).
Proof.
  induction l1 as [|x l1 IH]; simpl; [reflexivity|].
  by rewrite map_app, map_map, IH.
Qed.

Lemma take_drop_nth (l : list Z) (k len : nat) :
  k + len <= length l ->
  take len (drop k l) = map (fun i => nth (k + i) l 0%Z) (seq 0 len).
Proof.
  intros H. apply (nth_ext _ _ 0%Z 0%Z).
  - rewrite length_firstn, length_skipn, length_map, length_seq. lia.
  - intros i Hi. rewrite length_firstn, length_skipn in Hi.
    rewrite nth_firstn. destruct (Nat.ltb_spec i len); [|lia].
    rewrite nth_skipn.
    rewrite (nth_indep (map (fun i => nth (k + i) l 0%Z) (seq 0 len)) 0%Z
               ((fun i => nth (k + i) l 0%Z) 0))
      by (rewrite length_map, length_seq; lia).
    rewrite (map_nth (fun i => nth (k + i) l 0%Z)), seq_nth by lia.
    reflexivity.
Qed.

Lemma well_formed_spec (s : Sudoku) :
  well_formed s = true <->
  shape (grid s) = [n s; n s] /\ length (data (grid s)) = n s * n s /\
  n s = sr s * sr s /\ n s <= 255.
Proof.
  unfold well_formed. rewrite !andb_true_iff, bool_decide_eq_true.
  rewrite !Nat.eqb_eq, Nat.leb_le. tauto.
Qed.

Lemma wf_ncols (s : Sudoku) : well_formed s = true -> ncols (grid s) = n s.
Proof. intros H. apply well_formed_spec in H. unfold ncols. by destruct H as [-> _]. Qed.

Lemma wf_nrows (s : Sudoku) : well_formed s = true -> nrows (grid s) = n s.
Proof. intros H. apply well_formed_spec in H. unfold nrows. by destruct H as [-> _]. Qed.

Lemma box_corner (m x : nat) : x < m * m -> x / m * m + m <= m * m.
Proof.
  intros H. assert (m <> 0) by lia.
  assert (x / m < m) by (apply Nat.Div0.div_lt_upper_bound; lia).
  nia.
Qed.

Lemma in_box_iff (m x y : nat) :
  0 < m -> (x / m * m <= y < x / m * m + m) <-> y / m = x / m.
Proof.
  intros Hm. split.
  - intros H. symmetry. apply (Nat.div_unique y m (x / m) (y - x / m * m)); lia.
  - intros <-. pose proof (Nat.div_mod_eq y m).
    pose proof (Nat.mod_upper_bound y m). lia.
Qed.

Lemma row_of_rect (s : Sudoku) (r : nat) :
  well_formed s = true -> r < n s ->
  row_of s r = map (getitem (grid s)) (rect r 1 0 (n s)).
Proof.
  intros Hwf Hr. unfold row_of. rewrite (wf_ncols s Hwf).
  apply well_formed_spec in Hwf as Hw. destruct Hw as [_ [Hlen _]].
  rewrite take_drop_nth by nia.
  unfold rect. simpl. rewrite app_nil_r, map_map.
  apply map_ext. intros c. unfold getitem, offset. simpl.
  by rewrite (wf_ncols s Hwf).
Qed.

Lemma col_of_rect (s : Sudoku) (c : nat) :
  well_formed s = true ->
  col_of s c = map (getitem (grid s)) (rect 0 (n s) c 1).
Proof.
  intros Hwf. unfold col_of. rewrite (wf_nrows s Hwf).
  unfold rect. rewrite <- map_list_prod. simpl.
  induction (seq 0 (n s)) as [|x l IH]; simpl; [reflexivity|]. by rewrite IH.
Qed.

Lemma box_rect (s : Sudoku) (r c : nat) :
  well_formed s = true -> r < n s -> c < n s ->
  box s r c = map (getitem (grid s))
                (rect (r / sr s * sr s) (sr s) (c / sr s * sr s) (sr s)).
Proof.
  intros Hwf Hr Hc. unfold box. rewrite (wf_ncols s Hwf), (wf_nrows s Hwf).
  apply well_formed_spec in Hwf. destruct Hwf as [_ [_ [Hn _]]].
  rewrite Hn in Hr, Hc. apply box_corner in Hr, Hc.
  unfold slice. rewrite Hn.
  replace (Nat.min _ _ - r / sr s * sr s) with (sr s) by lia.
  replace (Nat.min _ _ - c / sr s * sr s) with (sr s) by lia.
  apply map_list_prod.
Qed.

End Cells.

(** * Lists of digits *)

Section Digits.

Lemma contains_In (d : Z) (l : list Z) : contains d l = true <-> In d l.
Proof.
  unfold contains. rewrite existsb_exists. split.
  - intros [x [Hx E]]. apply Z.eqb_eq in E. by subst.
  - intros H. exists d. split; [assumption | apply Z.eqb_refl].
Qed.

Lemma contains_false (d : Z) (l : list Z) :
  negb (contains d l) = true <-> ~ In d l.
Proof.
  rewrite negb_true_iff, <- not_true_iff_false. by rewrite contains_In.
Qed.

Lemma no_repeat_map {A} (f : A -> Z) (cells : list A) :
  List.NoDup cells ->
  no_repeat (map f cells) = true <->
  (forall p q, In p cells -> In q cells -> p <> q -> f p <> 0%Z -> f p <> f q).
Proof.
  intros Hnd. induction Hnd as [|x l Hx Hnd IH]; simpl.
  - split; [intros _ p q [] | reflexivity].
  - rewrite andb_true_iff, orb_true_iff, Z.eqb_eq, contains_false, IH.
    split.
    + intros [Hhd Htl] p q [<-|Hp] [<-|Hq] Hne Hnz.
      * contradiction.
      * destruct Hhd as [Hz|Hn]; [contradiction|].
        intros E. apply Hn. rewrite E. by apply in_map.
      * destruct Hhd as [Hz|Hn]; [congruence|].
        intros E. apply Hn. rewrite <- E. by apply in_map.
      * by apply Htl.
    + intros H. split.
      * destruct (Z.eq_dec (f x) 0%Z) as [Hz|Hz]; [by left | right].
        intros Hin. apply in_map_iff in Hin. destruct Hin as [q [E Hq]].
        apply (H x q); auto. intros ->. contradiction.
      * intros p q Hp Hq. apply H; by right.
Qed.

Lemma NoDup_map_inj {A} (f : A -> Z) (l : list A) (p q : A) :
  List.NoDup (map f l) -> In p l -> In q l -> f p = f q -> p = q.
Proof.
  induction l as [|x l IH]; simpl; [tauto|].
  intros Hnd Hp Hq E. apply List.NoDup_cons_iff in Hnd. destruct Hnd as [Hx Hnd].
  destruct Hp as [<-|Hp], Hq as [<-|Hq]; auto.
  - exfalso. apply Hx. rewrite E. by apply in_map.
  - exfalso. apply Hx. rewrite <- E. by apply in_map.
Qed.

Lemma in_arange (N : nat) (d : Z) :
  In d (arange 1 (N + 1)) <-> (1 <= d <= Z.of_nat N)%Z.
Proof.
  unfold arange. rewrite in_map_iff. split.
  - intros [k [<- Hk]]. apply in_seq in Hk. lia.
  - intros H. exists (Z.to_nat d). split; [lia | apply in_seq; lia].
Qed.

Lemma NoDup_arange (lo hi : nat) : List.NoDup (arange lo hi).
Proof.
  unfold arange. apply NoDup_map_NoDup_ForallPairs; [|apply seq_NoDup].
  intros a b _ _. apply Nat2Z.inj.
Qed.

Lemma length_arange (N : nat) : length (arange 1 (N + 1)) = N.
Proof. unfold arange. rewrite length_map, length_seq. lia. Qed.

Lemma each_digit_once_map {A} `{EqDecision A} (f : A -> Z) (cells : list A) (N : nat) :
  List.NoDup cells -> length cells = N ->
  each_digit_once N (map f cells) <->
  (forall p, In p cells -> (1 <= f p <= Z.of_nat N)%Z) /\
  (forall p q, In p cells -> In q cells -> p <> q -> f p <> f q).
Proof.
  intros Hnd Hlen. unfold each_digit_once. split.
  - intros H.
    assert (P : Permutation (arange 1 (N + 1)) (map f cells)).
    { apply NoDup_Permutation_bis.
      - apply NoDup_arange.
      - rewrite length_map, length_arange. lia.
      - intros d Hd. apply in_arange in Hd. apply (count_occ_In Z.eq_dec).
        rewrite H by assumption. lia. }
    split.
    + intros p Hp. apply in_arange.
      apply (Permutation_in _ (Permutation_sym P)). by apply in_map.
    + intros p q Hp Hq Hne E. apply Hne.
      apply (NoDup_map_inj f cells); auto.
      apply (Permutation_NoDup P). apply NoDup_arange.
  - intros [Hr Hi] d Hd.
    assert (P : Permutation (map f cells) (arange 1 (N + 1))).
    { apply NoDup_Permutation_bis.
      - apply NoDup_map_NoDup_ForallPairs; [|assumption].
        intros p q Hp Hq E. destruct (decide (p = q)) as [|Hne]; [assumption|].
        exfalso. by apply (Hi p q).
      - rewrite length_map, length_arange. lia.
      - intros v Hv. apply in_map_iff in Hv. destruct Hv as [p [<- Hp]].
        apply in_arange. by apply Hr. }
    rewrite (Permutation_count_occ Z.eq_dec _ _) in P. rewrite P.
    apply NoDup_count_occ'; [apply NoDup_arange | by apply in_arange].
Qed.

End Digits.

(** * The checks, cell by cell *)

Section Units.

Variable s : Sudoku.
Hypothesis Hwf : well_formed s = true.

Lemma wf_square : n s = sr s * sr s.
Proof. apply well_formed_spec in Hwf. tauto. Qed.

Lemma wf_sr_pos (p : nat * nat) : in_grid (n s) p -> 0 < sr s.
Proof. intros [H _]. rewrite wf_square in H. destruct (sr s); lia. Qed.

Lemma in_row_unit (r : nat) (q : nat * nat) :
  In q (rect r 1 0 (n s)) <-> fst q = r /\ snd q < n s.
Proof. rewrite in_rect. lia. Qed.

Lemma in_col_unit (c : nat) (q : nat * nat) :
  In q (rect 0 (n s) c 1) <-> fst q < n s /\ snd q = c.
Proof. rewrite in_rect. lia. Qed.

Lemma in_box_unit (r c : nat) (q : nat * nat) :
  r < n s -> c < n s ->
  In q (rect (r / sr s * sr s) (sr s) (c / sr s * sr s) (sr s)) <->
  in_grid (n s) q /\ fst q / sr s = r / sr s /\ snd q / sr s = c / sr s.
Proof.
  intros Hr Hc. assert (Hm : 0 < sr s) by (apply (wf_sr_pos (r, c)); by split).
  rewrite in_rect, !in_box_iff by assumption.
  pose proof wf_square as Hn. unfold in_grid. split; [|tauto].
  intros [H1 H2]. repeat split; auto.
  - rewrite Hn in Hr. apply box_corner in Hr.
    apply in_box_iff in H1; auto. lia.
  - rewrite Hn in Hc. apply box_corner in Hc.
    apply in_box_iff in H2; auto. lia.
Qed.

Lemma in_map_getitem (u : list (nat * nat)) (d : Z) :
  In d (map (getitem (grid s)) u) <-> exists q, In q u /\ getitem (grid s) q = d.
Proof. rewrite in_map_iff. split; intros [q [H1 H2]]; eauto. Qed.

Lemma is_safe_spec (p : nat * nat) (d : Z) :
  in_grid (n s) p ->
  is_safe s (fst p) (snd p) d = true <-> safe_at s p d.
Proof.
  intros [Hr Hc]. unfold is_safe, row_safe, col_safe, box_safe.
  rewrite !andb_true_iff, !contains_false.
  rewrite row_of_rect, col_of_rect, box_rect by assumption.
  rewrite !in_map_getitem. unfold safe_at, related. split.
  - intros [[H1 H2] H3] q Hq [E|[E|[E1 E2]]] Hd.
    + apply H1. exists q. split; [|assumption]. apply in_row_unit.
      destruct Hq. split; auto.
    + apply H2. exists q. split; [|assumption]. apply in_col_unit.
      destruct Hq. split; auto.
    + apply H3. exists q. split; [|assumption]. apply in_box_unit; auto.
  - intros H. repeat split; intros [q [Hq Hd]]; revert Hd.
    + apply in_row_unit in Hq. destruct Hq as [E Hq]. apply H.
      * split; [by rewrite E | assumption].
      * by left.
    + apply in_col_unit in Hq. destruct Hq as [Hq E]. apply H.
      * split; [assumption | by rewrite E].
      * right; by left.
    + apply in_box_unit in Hq; auto. destruct Hq as [Hq [E1 E2]]. apply H.
      * assumption.
      * right; right. by split.
Qed.

Lemma in_block_unit (i j : nat) (q : nat * nat) :
  i < sr s -> j < sr s ->
  In q (block_cells (sr s) i j) <->
  in_grid (n s) q /\ fst q / sr s = i /\ snd q / sr s = j.
Proof.
  intros Hi Hj. pose proof wf_square as Hn.
  assert (Hr : i * sr s < n s) by nia. assert (Hc : j * sr s < n s) by nia.
  pose proof (in_box_unit (i * sr s) (j * sr s) q Hr Hc) as H.
  rewrite !Nat.div_mul in H by lia. exact H.
Qed.

Lemma block_index (p : nat * nat) :
  in_grid (n s) p -> fst p / sr s < sr s /\ snd p / sr s < sr s.
Proof.
  intros [H1 H2]. pose proof wf_square as Hn.
  split; apply Nat.Div0.div_lt_upper_bound; lia.
Qed.

Lemma consistent_spec : consistent s = true <-> distinct_peers s.
Proof.
  unfold consistent, digits_at, row_cells, col_cells.
  rewrite !andb_true_iff, !forallb_forall. split.
  - intros [[Hrow Hcol] Hbox] p q Hp Hq Hne [E|[E|[E1 E2]]] Hnz.
    + specialize (Hrow (fst p)).
      rewrite no_repeat_map in Hrow by apply NoDup_rect.
      apply Hrow; auto.
      * apply in_seq. destruct Hp. lia.
      * apply in_row_unit. destruct Hp. by split.
      * apply in_row_unit. destruct Hq. by split.
    + specialize (Hcol (snd p)).
      rewrite no_repeat_map in Hcol by apply NoDup_rect.
      apply Hcol; auto.
      * apply in_seq. destruct Hp. lia.
      * apply in_col_unit. destruct Hp. by split.
      * apply in_col_unit. destruct Hq. by split.
    + destruct (block_index p Hp) as [Hi Hj].
      assert (Hb : no_repeat (map (getitem (grid s))
                    (block_cells (sr s) (fst p / sr s) (snd p / sr s))) = true).
      { assert (Hin : In (fst p / sr s) (seq 0 (sr s))) by (apply in_seq; lia).
        specialize (Hbox _ Hin). rewrite forallb_forall in Hbox.
        apply Hbox. apply in_seq. lia. }
      rewrite no_repeat_map in Hb by apply NoDup_rect.
      apply Hb; auto; apply in_block_unit; auto.
  - intros H. repeat split.
    + intros r Hr. apply in_seq in Hr.
      rewrite no_repeat_map by apply NoDup_rect.
      intros p q Hp Hq Hne. apply in_row_unit in Hp, Hq.
      apply H; auto; try (split; lia). left. lia.
    + intros c Hc. apply in_seq in Hc.
      rewrite no_repeat_map by apply NoDup_rect.
      intros p q Hp Hq Hne. apply in_col_unit in Hp, Hq.
      apply H; auto; try (split; lia). right; left. lia.
    + intros i Hi. apply forallb_forall. intros j Hj.
      apply in_seq in Hi, Hj.
      rewrite no_repeat_map by apply NoDup_rect.
      intros p q Hp Hq Hne. apply in_block_unit in Hp, Hq; try lia.
      apply H; auto; try tauto. right; right. lia.
Qed.

End Units.

Section Solved.

Variable s : Sudoku.
Hypothesis Hwf : well_formed s = true.

Lemma solved_spec : solved s <-> digits_filled s /\ distinct_peers s.
Proof.
  pose proof (wf_square s Hwf) as Hn.
  unfold solved, digits_filled, digits_at, row_cells, col_cells. split.
  - intros [Hrow [Hcol Hbox]]. split.
    + intros p [Hp1 Hp2]. specialize (Hrow _ Hp1).
      rewrite each_digit_once_map in Hrow
        by (try apply NoDup_rect; rewrite length_rect; lia).
      apply Hrow. apply in_row_unit. by split.
    + intros p q Hp Hq Hne [E|[E|[E1 E2]]] _.
      * destruct Hp as [Hp1 Hp2], Hq as [Hq1 Hq2]. specialize (Hrow _ Hp1).
        rewrite each_digit_once_map in Hrow
          by (try apply NoDup_rect; rewrite length_rect; lia).
        apply Hrow; auto; apply in_row_unit; by split.
      * destruct Hp as [Hp1 Hp2], Hq as [Hq1 Hq2]. specialize (Hcol _ Hp2).
        rewrite each_digit_once_map in Hcol
          by (try apply NoDup_rect; rewrite length_rect; lia).
        apply Hcol; auto; apply in_col_unit; by split.
      * destruct (block_index s Hwf p Hp) as [Hi Hj].
        specialize (Hbox _ _ Hi Hj).
        rewrite each_digit_once_map in Hbox
          by (try apply NoDup_rect; unfold block_cells; rewrite length_rect; lia).
        apply Hbox; auto; apply in_block_unit; auto.
  - intros [Hrange Hpeers]. repeat split.
    + intros r Hr.
      rewrite each_digit_once_map
        by (try apply NoDup_rect; rewrite length_rect; lia).
      split.
      * intros p Hp. apply in_row_unit in Hp. apply Hrange. split; lia.
      * intros p q Hp Hq Hne. apply in_row_unit in Hp, Hq.
        assert (Hg : in_grid (n s) p) by (split; lia).
        apply Hpeers; auto; try (split; lia).
        -- left. lia.
        -- specialize (Hrange p Hg). lia.
    + intros c Hc.
      rewrite each_digit_once_map
        by (try apply NoDup_rect; rewrite length_rect; lia).
      split.
      * intros p Hp. apply in_col_unit in Hp. apply Hrange. split; lia.
      * intros p q Hp Hq Hne. apply in_col_unit in Hp, Hq.
        assert (Hg : in_grid (n s) p) by (split; lia).
        apply Hpeers; auto; try (split; lia).
        -- right; left. lia.
        -- specialize (Hrange p Hg). lia.
    + intros i j Hi Hj.
      rewrite each_digit_once_map
        by (try apply NoDup_rect; unfold block_cells; rewrite length_rect; lia).
      split.
      * intros p Hp. apply in_block_unit in Hp; auto. apply Hrange. tauto.
      * intros p q Hp Hq Hne. apply in_block_unit in Hp, Hq; auto.
        apply Hpeers; auto; try tauto.
        -- right; right. lia.
        -- specialize (Hrange p). destruct Hp as [Hp _]. specialize (Hrange Hp). lia.
Qed.

End Solved.

(** * Filling cells *)

Section Filling.

Lemma related_sym (m : nat) (p q : nat * nat) : related m p q -> related m q p.
Proof. unfold related. intuition. Qed.

Lemma well_formed_set (g : Sudoku) (p : nat * nat) (d : Z) :
  well_formed (Sudoku_set g p d) = well_formed g.
Proof. unfold well_formed, Sudoku_set. simpl. by rewrite length_insert. Qed.

Lemma offset_in_range (g : Sudoku) (p : nat * nat) :
  well_formed g = true -> in_grid (n g) p ->
  offset (grid g) p < length (data (grid g)).
Proof.
  intros Hwf [Hr Hc]. unfold offset. rewrite (wf_ncols g Hwf).
  apply well_formed_spec in Hwf. destruct Hwf as [_ [-> _]]. nia.
Qed.

Lemma get_set_eq (g : Sudoku) (p : nat * nat) (d : Z) :
  well_formed g = true -> in_grid (n g) p ->
  getitem (grid (Sudoku_set g p d)) p = d.
Proof. intros Hwf Hp. simpl. apply getitem_setitem_eq. by apply offset_in_range. Qed.

Lemma get_set_ne (g : Sudoku) (p q : nat * nat) (d : Z) :
  well_formed g = true -> in_grid (n g) p -> in_grid (n g) q -> p <> q ->
  getitem (grid (Sudoku_set g p d)) q = getitem (grid g) q.
Proof.
  intros Hwf [_ Hp] [_ Hq] Hne. simpl. apply getitem_setitem_ne.
  intros E. apply Hne. apply (offset_inj (grid g)); auto;
    by rewrite (wf_ncols g Hwf).
Qed.

Lemma find_empty_in_grid (g : Sudoku) (p : nat * nat) :
  well_formed g = true -> find_empty g = Some p -> in_grid (n g) p.
Proof.
  intros Hwf H. apply find_empty_Some in H.
  destruct H as [_ [_ [k [-> Hk]]]]. unfold unravel, in_grid. simpl.
  rewrite (wf_ncols g Hwf).
  apply well_formed_spec in Hwf. destruct Hwf as [_ [Hlen _]].
  rewrite Hlen in Hk. assert (n g <> 0) by (intros E; rewrite E in Hk; lia).
  split.
  - apply Nat.Div0.div_lt_upper_bound. lia.
  - apply Nat.mod_upper_bound. assumption.
Qed.

Lemma candidates_spec (g : Sudoku) (p : nat * nat) (d : Z) :
  well_formed g = true -> in_grid (n g) p ->
  In d (candidates g p) <-> (1 <= d <= Z.of_nat (n g))%Z /\ safe_at g p d.
Proof.
  intros Hwf Hp. unfold candidates.
  by rewrite filter_In, in_arange, is_safe_spec.
Qed.

Lemma digits_in_range_spec (g : Sudoku) :
  well_formed g = true -> digits_in_range g = true -> cells_in_range g.
Proof.
  intros Hwf H p Hp. unfold digits_in_range in H. rewrite forallb_forall in H.
  specialize (H (getitem (grid g) p)). unfold getitem in *.
  assert (Hin : In (nth (offset (grid g) p) (data (grid g)) 0%Z) (data (grid g)))
    by (apply nth_In; by apply offset_in_range).
  apply H in Hin. lia.
Qed.

Lemma complete_spec (g : Sudoku) :
  well_formed g = true ->
  complete g <-> (forall p, in_grid (n g) p -> getitem (grid g) p <> 0%Z).
Proof.
  intros Hwf. unfold complete. split.
  - intros H p Hp E. apply H. rewrite <- E. apply nth_In.
    by apply offset_in_range.
  - intros H Hin. destruct (find_empty g) as [p|] eqn:E.
    + apply (H p); [by apply find_empty_in_grid|].
      apply find_empty_Some in E. tauto.
    + apply find_empty_None in E. contradiction.
Qed.

(** Filling an empty cell with a safe digit keeps the grid consistent. *)
Lemma distinct_peers_fill (g : Sudoku) (p : nat * nat) (d : Z) :
  well_formed g = true -> in_grid (n g) p ->
  distinct_peers g -> safe_at g p d ->
  distinct_peers (Sudoku_set g p d).
Proof.
  intros Hwf Hp Hg Hs a b Ha Hb Hne Hrel. simpl in Ha, Hb, Hrel.
  destruct (decide (p = a)) as [<-|Hpa].
  - rewrite get_set_eq, get_set_ne by auto. intros _ E.
    by apply (Hs b Hb Hrel).
  - rewrite (get_set_ne g p a) by auto.
    destruct (decide (p = b)) as [<-|Hpb].
    + rewrite get_set_eq by auto. intros _.
      apply (Hs a Ha). by apply related_sym.
    + rewrite get_set_ne by auto. by apply Hg.
Qed.

(** Emptying a cell keeps the grid consistent. *)
Lemma distinct_peers_clear (g : Sudoku) (p : nat * nat) :
  well_formed g = true -> in_grid (n g) p ->
  distinct_peers g -> distinct_peers (Sudoku_set g p 0%Z).
Proof.
  intros Hwf Hp Hg a b Ha Hb Hne Hrel. simpl in Ha, Hb, Hrel.
  destruct (decide (p = a)) as [<-|Hpa].
  - rewrite get_set_eq by auto. congruence.
  - rewrite (get_set_ne g p a) by auto.
    destruct (decide (p = b)) as [<-|Hpb].
    + rewrite get_set_eq by auto. congruence.
    + rewrite get_set_ne by auto. by apply Hg.
Qed.

Lemma cells_in_range_set (g : Sudoku) (p : nat * nat) (d : Z) :
  well_formed g = true -> in_grid (n g) p ->
  cells_in_range g -> (0 <= d <= Z.of_nat (n g))%Z ->
  cells_in_range (Sudoku_set g p d).
Proof.
  intros Hwf Hp Hg Hd a Ha. simpl in Ha. change (n (Sudoku_set g p d)) with (n g).
  destruct (decide (p = a)) as [<-|Hpa].
  - by rewrite get_set_eq.
  - rewrite get_set_ne by auto. by apply Hg.
Qed.

End Filling.

Section FillsFacts.

Lemma fills_trans (a b c : Sudoku) : fills a b -> fills b c -> fills a c.
Proof.
  intros H. induction H as [g|g g' cell d He Hd H IH]; [auto|].
  intros Hc. eapply fills_step; eauto.
Qed.

Lemma fills_dims (g g' : Sudoku) :
  fills g g' ->
  n g' = n g /\ sr g' = sr g /\ well_formed g' = well_formed g.
Proof.
  intros H. induction H as [g|g g' cell d He Hd H IH]; [auto|].
  destruct IH as [-> [-> ->]]. by rewrite well_formed_set.
Qed.

Lemma fills_agrees (g g' : Sudoku) :
  well_formed g = true -> fills g g' -> agrees g g'.
Proof.
  intros Hwf H. induction H as [g|g g' cell d He Hd H IH].
  - by intros p _ _.
  - intros p Hp Hnz. pose proof (find_empty_in_grid g cell Hwf He) as Hc.
    assert (Hne : cell <> p).
    { intros ->. apply find_empty_Some in He. tauto. }
    rewrite IH.
    + by apply get_set_ne.
    + by rewrite well_formed_set.
    + assumption.
    + by rewrite get_set_ne.
Qed.

Lemma fills_consistent (g g' : Sudoku) :
  well_formed g = true -> fills g g' ->
  distinct_peers g -> cells_in_range g ->
  distinct_peers g' /\ cells_in_range g'.
Proof.
  intros Hwf H. induction H as [g|g g' cell d He Hd H IH]; [auto|].
  intros Hp Hr. pose proof (find_empty_in_grid g cell Hwf He) as Hc.
  apply candidates_spec in Hd; auto. destruct Hd as [Hd Hs].
  apply IH.
  - by rewrite well_formed_set.
  - by apply distinct_peers_fill.
  - apply cells_in_range_set; auto. lia.
Qed.

(** A completion of [g] gives its own digit as a candidate of every empty
    cell of [g]. *)
Lemma solution_safe (g : Sudoku) (f : nat * nat -> Z) (p : nat * nat) :
  solution_of g f -> in_grid (n g) p -> getitem (grid g) p = 0%Z ->
  safe_at g p (f p).
Proof.
  intros [Hr [Hi Ha]] Hp Hz q Hq Hrel E.
  assert (Hnz : getitem (grid g) q <> 0%Z) by (specialize (Hr p Hp); lia).
  assert (Hne : p <> q) by congruence.
  apply (Hi p q); auto. rewrite (Ha q); auto.
Qed.

Lemma solution_fill (g : Sudoku) (f : nat * nat -> Z) (p : nat * nat) :
  well_formed g = true -> solution_of g f -> in_grid (n g) p ->
  solution_of (Sudoku_set g p (f p)) f.
Proof.
  intros Hwf [Hr [Hi Ha]] Hp. split; [exact Hr | split; [exact Hi |]].
  intros q Hq. simpl in Hq. destruct (decide (p = q)) as [<-|Hne].
  - by rewrite get_set_eq.
  - rewrite get_set_ne by auto. by apply Ha.
Qed.

Lemma solution_candidate (g : Sudoku) (f : nat * nat -> Z) (p : nat * nat) :
  well_formed g = true -> solution_of g f -> find_empty g = Some p ->
  In (f p) (candidates g p).
Proof.
  intros Hwf Hs He. pose proof (find_empty_in_grid g p Hwf He) as Hp.
  apply candidates_spec; auto. split.
  - destruct Hs as [Hr _]. by apply Hr.
  - apply solution_safe; auto. apply find_empty_Some in He. tauto.
Qed.

Lemma completion_solution (g s : Sudoku) :
  completion g s -> solution_of g (getitem (grid s)).
Proof.
  intros [Hwf [Hn [Hm [Hs Ha]]]]. apply solved_spec in Hs; auto.
  destruct Hs as [Hf Hp]. unfold solution_of. rewrite <- Hn, <- Hm.
  split; [|split].
  - apply Hf.
  - intros p q Hp' Hq Hne Hrel. apply Hp; auto.
    specialize (Hf p Hp'). lia.
  - rewrite Hn. apply Ha.
Qed.

(** Two grids of the same shape with the same cells are the same object
    state. *)
Lemma Sudoku_ext (g s : Sudoku) :
  well_formed g = true -> well_formed s = true ->
  n s = n g -> sr s = sr g ->
  (forall p, in_grid (n g) p -> getitem (grid s) p = getitem (grid g) p) ->
  s = g.
Proof.
  intros Hg Hs Hn Hm H.
  pose proof (wf_ncols g Hg) as Hcg. pose proof (wf_ncols s Hs) as Hcs.
  apply well_formed_spec in Hg, Hs.
  destruct Hg as [Hsg [Hlg _]], Hs as [Hss [Hls _]].
  destruct g as [[shg dg] ng mg], s as [[shs ds] ns ms]. simpl in *. subst.
  f_equal. f_equal. apply (nth_ext _ _ 0%Z 0%Z); [lia|].
  intros k Hk. rewrite Hls in Hk.
  assert (ng <> 0) by (intros E; rewrite E in Hk; lia).
  specialize (H (k / ng, k mod ng)). unfold getitem, offset, ncols in H.
  simpl in H. replace (k / ng * ng + k mod ng) with k in H
    by (pose proof (Nat.div_mod_eq k ng); lia).
  apply H. split; simpl.
  - apply Nat.Div0.div_lt_upper_bound. lia.
  - by apply Nat.mod_upper_bound.
Qed.

End FillsFacts.

Section Completions.

Lemma valid_spec (g : Sudoku) :
  valid g = true ->
  well_formed g = true /\ distinct_peers g /\ cells_in_range g.
Proof.
  unfold valid. rewrite !andb_true_iff. intros [[Hwf Hr] Hc].
  split; [assumption|]. split.
  - by apply consistent_spec.
  - by apply digits_in_range_spec.
Qed.

Lemma fills_complete_completion (g g' : Sudoku) :
  well_formed g = true -> distinct_peers g -> cells_in_range g ->
  fills g g' -> complete g' -> completion g g'.
Proof.
  intros Hwf Hc Hr Hf Hcomp.
  destruct (fills_dims g g' Hf) as [Hn [Hm Hw]]. rewrite Hwf in Hw.
  destruct (fills_consistent g g' Hwf Hf Hc Hr) as [Hp' Hr'].
  split; [assumption | split; [assumption | split; [assumption |]]].
  split; [| by apply fills_agrees].
  apply solved_spec; auto. split; [|assumption].
  intros p Hp. rewrite complete_spec in Hcomp by assumption.
  specialize (Hcomp p Hp). specialize (Hr' p Hp). lia.
Qed.

Lemma completion_fill (g s : Sudoku) (p : nat * nat) :
  well_formed g = true -> in_grid (n g) p -> completion g s ->
  completion (Sudoku_set g p (getitem (grid s) p)) s.
Proof.
  intros Hwf Hp [Hs [Hn [Hm [Hsol Ha]]]].
  split; [assumption | split; [assumption | split; [assumption |]]].
  split; [assumption |].
  intros q Hq. simpl in Hq. destruct (decide (p = q)) as [<-|Hne].
  - by rewrite get_set_eq.
  - rewrite get_set_ne by auto. by apply Ha.
Qed.

Lemma completion_fills (g s : Sudoku) :
  well_formed g = true -> completion g s -> fills g s.
Proof.
  remember (count_empty g) as k eqn:Hk. revert g Hk.
  induction k as [k IH] using lt_wf_ind. intros g Hk Hwf Hc.
  destruct (find_empty g) as [p|] eqn:He.
  - pose proof (find_empty_in_grid g p Hwf He) as Hp.
    pose proof (solution_candidate g _ p Hwf (completion_solution g s Hc) He) as Hd.
    apply (fills_step g s p (getitem (grid s) p)); auto.
    apply candidates_nonzero in Hd.
    apply (IH (count_empty (Sudoku_set g p (getitem (grid s) p)))); auto.
    + rewrite Hk, <- (count_empty_fill g p (getitem (grid s) p)); auto; lia.
    + by rewrite well_formed_set.
    + by apply completion_fill.
  - apply find_empty_None in He. rewrite complete_spec in He by assumption.
    destruct Hc as [Hs [Hn [Hm [_ Ha]]]].
    rewrite (Sudoku_ext g s Hwf Hs Hn Hm); [apply fills_refl|].
    intros p Hp. apply Ha; auto.
Qed.

End Completions.

(** * The single-solution search *)

Section Store.
Context {RS : RandomSource}.

Lemma obj_lookup (h : list Sudoku) (s : rng) (r : ref) (g : Sudoku) :
  h !! r = Some g -> obj {| heap := h; rand := s |} r = g.
Proof. intros H. unfold obj. by apply nth_lookup_Some. Qed.

Lemma obj_insert (h : list Sudoku) (s : rng) (r : ref) (g : Sudoku) :
  r < length h -> obj {| heap := <[r:=g]> h; rand := s |} r = g.
Proof. intros H. apply obj_lookup. by apply list_lookup_insert_eq. Qed.

Lemma solve_inplace_fuel_spec (fuel : nat) :
  forall (self : ref) (h : list Sudoku) (s : rng) (g : Sudoku),
    h !! self = Some g -> count_empty g < fuel ->
    exists res g' s',
      solve_inplace_fuel fuel self {| heap := h; rand := s |}
      = Ok res {| heap := <[self:=g']> h; rand := s' |}
      /\ solve_post g self res g'.
Proof.
  induction fuel as [|fuel IH]; intros self h s g Hg Hfuel; [lia|].
  assert (Hlt : self < length h) by (eapply lookup_lt_Some; eauto).
  simpl. unfold bind at 1. unfold deref at 1.
  rewrite (obj_lookup _ _ _ _ Hg).
  destruct (find_empty g) as [cell|] eqn:He.
  - unfold bind at 1. unfold random_candidates. unfold bind at 1. unfold deref at 1.
    rewrite (obj_lookup _ _ _ _ Hg). unfold np_shuffle. simpl.
    pose proof (shuffle_perm s (candidates g cell)) as Hperm.
    destruct (shuffle s (candidates g cell)) as [cands s1]. simpl in Hperm.
    match goal with |- context [for_in cands ?body tt] => set (B := body) end.
    assert (Hloop : forall l v s1, incl l (candidates g cell) ->
      exists r g' s',
        for_in l B tt {| heap := <[self:=Sudoku_set g cell v]> h; rand := s1 |}
        = Ok r {| heap := <[self:=g']> h; rand := s' |} /\
        match r with
        | Continue _ =>
            (exists v', g' = Sudoku_set g cell v') /\
            (well_formed g = true -> forall d, In d l ->
               forall f, ~ solution_of (Sudoku_set g cell d) f)
        | Return sol => sol = self /\ fills g g' /\ find_empty g' = None
        end).
    { induction l as [|d l IHl]; intros v s2 Hincl.
      - exists (Continue tt), (Sudoku_set g cell v), s2. split; [reflexivity|].
        split; [by exists v | intros _ d []].
      - simpl. unfold bind at 1. unfold B at 1. unfold bind at 1.
        unfold assign at 1. cbn [heap rand]. rewrite obj_insert by assumption.
        rewrite Sudoku_set_set, list_insert_insert_eq. unfold bind at 1.
        assert (Hd : In d (candidates g cell)) by (apply Hincl; by left).
        destruct (IH self (<[self:=Sudoku_set g cell d]> h) s2 (Sudoku_set g cell d))
          as [res [g' [s' [E P]]]].
        + by apply list_lookup_insert_eq.
        + apply candidates_nonzero in Hd.
          rewrite <- (count_empty_fill g cell d) in Hfuel; auto; lia.
        + rewrite E. rewrite list_insert_insert_eq.
          destruct res as [sol|]; simpl in P.
          * exists (Return sol), g', s'. split; [reflexivity|].
            destruct P as [-> [Hf Hc]]. split; [reflexivity|]. split; [|assumption].
            by apply (fills_step g g' cell d).
          * destruct P as [-> Hno]. unfold ret at 1.
            destruct (IHl d s') as [r [g' [s'' [E' P']]]].
            { intros x Hx. apply Hincl. by right. }
            exists r, g', s''. split; [exact E'|].
            destruct r as [[]|sol]; [|assumption].
            destruct P' as [Hv Hrest]. split; [assumption|].
            intros Hwf x [<-|Hx]; [|by apply Hrest].
            apply Hno. by rewrite well_formed_set. }
    apply find_empty_Some in He as Hz. destruct Hz as [_ [Hz _]].
    destruct (Hloop cands 0%Z s1) as [r [g' [s' [E P]]]].
    { intros x Hx. by apply (Permutation_in _ (Permutation_sym Hperm)). }
    rewrite (Sudoku_set_same g cell Hz), (list_insert_id h self g Hg) in E.
    unfold bind at 1. rewrite E.
    destruct r as [[]|sol].
    + destruct P as [[v' ->] Hno].
      unfold bind at 1. unfold assign at 1. cbn [heap rand].
      rewrite obj_insert by assumption.
      rewrite Sudoku_set_set, list_insert_insert_eq, (Sudoku_set_same g cell Hz).
      exists None, g, s'. split; [reflexivity|]. split; [reflexivity|].
      intros Hwf f Hf.
      apply (Hno Hwf (f cell)) with (f := f).
      * apply (Permutation_in _ Hperm). by apply solution_candidate.
      * apply solution_fill; auto. by apply find_empty_in_grid.
    + exists (Some sol), g', s'. split; [reflexivity | exact P].
  - exists (Some self), g, s. split.
    + unfold ret. by rewrite (list_insert_id h self g Hg).
    + split; [reflexivity|]. split; [apply fills_refl | assumption].
Qed.

Lemma solve_inplace_spec (self : ref) (h : list Sudoku) (s : rng) (g : Sudoku) :
  h !! self = Some g ->
  exists res g' s',
    solve_inplace self {| heap := h; rand := s |}
    = Ok res {| heap := <[self:=g']> h; rand := s' |}
    /\ solve_post g self res g'.
Proof.
  intros Hg. unfold solve_inplace. rewrite (obj_lookup _ _ _ _ Hg).
  apply solve_inplace_fuel_spec; auto.
Qed.

End Store.

(** * A completion of the empty grid *)

Section Pattern.

Lemma add_mod_inj (N K x y : nat) :
  x < N -> y < N -> (K + x) mod N = (K + y) mod N -> x = y.
Proof.
  intros Hx Hy E.
  pose proof (Nat.div_mod_eq (K + x) N) as H1.
  pose proof (Nat.div_mod_eq (K + y) N) as H2.
  rewrite E in H1.
  assert ((K + x) / N = (K + y) / N) by nia.
  nia.
Qed.

Lemma split_inj (m a b a' b' : nat) :
  b < m -> b' < m -> a * m + b = a' * m + b' -> a = a' /\ b = b'.
Proof. intros Hb Hb' E. assert (a = a') by nia. subst. lia. Qed.

Lemma shift_lt (m r : nat) : r < m * m -> (r mod m) * m + r / m < m * m.
Proof.
  intros H. assert (m <> 0) by lia.
  assert (r / m < m) by (apply Nat.Div0.div_lt_upper_bound; lia).
  pose proof (Nat.mod_upper_bound r m). nia.
Qed.

Lemma pattern_range (m : nat) (p : nat * nat) :
  in_grid (m * m) p -> (1 <= pattern m p <= Z.of_nat (m * m))%Z.
Proof.
  intros [H _]. unfold pattern.
  pose proof (Nat.mod_upper_bound ((fst p mod m) * m + fst p / m + snd p) (m * m)).
  lia.
Qed.

Lemma pattern_inj (m : nat) (p q : nat * nat) :
  in_grid (m * m) p -> in_grid (m * m) q -> related m p q ->
  pattern m p = pattern m q -> p = q.
Proof.
  destruct p as [r c], q as [r' c']. unfold in_grid, related, pattern. simpl.
  intros [Hr Hc] [Hr' Hc'] Hrel E.
  assert (Hm : m <> 0) by lia.
  assert (E' : ((r mod m) * m + r / m + c) mod (m * m)
               = ((r' mod m) * m + r' / m + c') mod (m * m)) by lia.
  clear E.
  pose proof (Nat.div_mod_eq r m) as Dr. pose proof (Nat.div_mod_eq r' m) as Dr'.
  pose proof (Nat.div_mod_eq c m) as Dc. pose proof (Nat.div_mod_eq c' m) as Dc'.
  pose proof (Nat.mod_upper_bound r m Hm). pose proof (Nat.mod_upper_bound r' m Hm).
  pose proof (Nat.mod_upper_bound c m Hm). pose proof (Nat.mod_upper_bound c' m Hm).
  assert (r / m < m) by (apply Nat.Div0.div_lt_upper_bound; lia).
  assert (r' / m < m) by (apply Nat.Div0.div_lt_upper_bound; lia).
  assert (c / m < m) by (apply Nat.Div0.div_lt_upper_bound; lia).
  assert (c' / m < m) by (apply Nat.Div0.div_lt_upper_bound; lia).
  destruct Hrel as [<-|[<-|[Er Ec]]].
  - apply add_mod_inj in E'; [congruence | lia | lia].
  - rewrite (Nat.add_comm _ c), (Nat.add_comm _ c) in E'.
    apply add_mod_inj in E'; try (by apply shift_lt).
    apply split_inj in E'; auto. destruct E' as [E1 E2].
    f_equal. rewrite Dr, Dr', E1, E2. reflexivity.
  - replace ((r mod m) * m + r / m + c)
      with ((r / m + c / m * m) + ((r mod m) * m + c mod m)) in E' by lia.
    replace ((r' mod m) * m + r' / m + c')
      with ((r / m + c / m * m) + ((r' mod m) * m + c' mod m)) in E' by lia.
    apply add_mod_inj in E'; try nia.
    apply split_inj in E'; auto. destruct E' as [E1 E2].
    f_equal; lia.
Qed.

Lemma pattern_solution (g : Sudoku) :
  n g = sr g * sr g ->
  (forall p, in_grid (n g) p -> getitem (grid g) p = 0%Z) ->
  solution_of g (pattern (sr g)).
Proof.
  intros Hn Hz. unfold solution_of. rewrite Hn. split; [|split].
  - intros p Hp. by apply pattern_range.
  - intros p q Hp Hq Hne Hrel E. apply Hne. by apply (pattern_inj (sr g)).
  - intros p Hp Hnz. exfalso. apply Hnz. apply Hz. by rewrite Hn.
Qed.

End Pattern.

(** * Construction *)

Section Construction.

Lemma Unsigned_nat_small (x : nat) : x <= 255 -> Unsigned_nat x = x.
Proof. intros H. unfold Unsigned_nat. apply Nat.mod_small. lia. Qed.

Lemma Sudoku_view_unverified (a : ndarray) (N m : nat) :
  shape a = [N; N] -> N = m * m -> N <= 255 ->
  Sudoku_view a false = inr {| grid := a; n := N; sr := m |}.
Proof.
  intros Hs HN Hle. unfold Sudoku_view. rewrite Hs.
  rewrite (Unsigned_nat_small N Hle). subst N. rewrite Nat.sqrt_square.
  rewrite Unsigned_nat_small by nia. reflexivity.
Qed.

(** A trusted copy of a well-formed grid has the same state. *)
Lemma Sudoku_copy_wf (g : Sudoku) :
  well_formed g = true -> Sudoku_copy g = inr g.
Proof.
  intros Hwf. apply well_formed_spec in Hwf. destruct Hwf as [Hs [_ [Hn Hle]]].
  unfold Sudoku_copy. rewrite (Sudoku_view_unverified _ (n g) (sr g)); auto.
  by destruct g.
Qed.

Lemma forallb_repeat (f : Z -> bool) (v : Z) (k : nat) :
  f v = true -> forallb f (repeat v k) = true.
Proof. intros H. induction k; simpl; [reflexivity | by rewrite H]. Qed.

Lemma Sudoku_new_zeros (m : nat) :
  m * m <= 255 -> Sudoku_new (zeros (m * m)) true = inr (empty_grid m).
Proof.
  intros Hle. unfold Sudoku_new, Sudoku_view, astype_Unsigned, zeros.
  cbn [shape data length]. rewrite map_repeat.
  change (Unsigned 0) with 0%Z.
  rewrite (Unsigned_nat_small (m * m) Hle), Nat.sqrt_square.
  rewrite Unsigned_nat_small by nia.
  unfold ncols. cbn [shape data nth]. rewrite !Nat.eqb_refl.
  rewrite forallb_repeat by (apply andb_true_iff; split; apply Z.leb_le; lia).
  reflexivity.
Qed.

Lemma empty_grid_wf (m : nat) : m * m <= 255 -> well_formed (empty_grid m) = true.
Proof.
  intros H. apply well_formed_spec. simpl. by rewrite repeat_length.
Qed.

Lemma empty_grid_zero (m : nat) (p : nat * nat) :
  getitem (grid (empty_grid m)) p = 0%Z.
Proof.
  unfold getitem, empty_grid, zeros. cbn [grid data].
  generalize (offset {| shape := [m * m; m * m]; data := repeat 0%Z (m * m * (m * m)) |} p).
  intros k. revert k. induction (m * m * (m * m)) as [|j IH]; intros [|k]; simpl; auto.
Qed.

End Construction.

(** * The exhaustive search *)

Lemma content_app (H e : list Sudoku) (r : nat) :
  r < length H -> content (H ++ e) r = content H r.
Proof. intros Hr. unfold content. by rewrite app_nth1. Qed.

Lemma map_content_app (H e : list Sudoku) (l : list nat) :
  Forall (fun r => r < length H) l ->
  map (content (H ++ e)) l = map (content H) l.
Proof.
  intros Hl. apply map_ext_in. intros r Hr. apply content_app.
  rewrite Forall_forall in Hl. apply Hl. by apply list_elem_of_In.
Qed.

Lemma recorded_app (g : Sudoku) (H e : list Sudoku) (r : nat) :
  recorded g H r -> recorded g (H ++ e) r.
Proof.
  intros [Hr [Hf Hc]]. unfold recorded. rewrite app_nth1 by assumption.
  rewrite length_app. repeat split; auto. lia.
Qed.

Lemma recorded_fills (g g' : Sudoku) (H : list Sudoku) (r : nat) :
  fills g g' -> recorded g' H r -> recorded g H r.
Proof.
  intros Hgg [Hr [Hf Hc]]. repeat split; auto. by apply (fills_trans g g').
Qed.

Lemma insert_last (h : list Sudoku) (g g' : Sudoku) :
  <[length h := g']> (h ++ [g]) = h ++ [g'].
Proof.
  rewrite insert_app_r_alt by lia. by rewrite Nat.sub_diag.
Qed.

Lemma lookup_last (h : list Sudoku) (g : Sudoku) :
  (h ++ [g]) !! length h = Some g.
Proof. by rewrite list_lookup_middle. Qed.

Lemma fills_of_complete (g o : Sudoku) :
  find_empty g = None -> fills g o -> o = g.
Proof. intros He Ho. inversion Ho; subst; [reflexivity | congruence]. Qed.

Section Enum.
Context {RS : RandomSource}.

Lemma solve_all_helper_spec (fuel : nat) :
  forall (self : nat) (h : list Sudoku) (s : rng) (sols : list nat) (g : Sudoku),
    h !! self = Some g -> well_formed g = true -> count_empty g < fuel ->
    Forall (fun r => r < length h) sols ->
    exists extra new,
      _solve_all_helper fuel self sols {| heap := h; rand := s |}
      = Ok (new ++ sols) {| heap := h ++ extra; rand := s |}
      /\ Forall (recorded g (h ++ extra)) new
      /\ (forall o, fills g o -> complete o ->
            In (grid o) (map (content (h ++ extra)) (new ++ sols)))
      /\ (List.NoDup (map (content h) sols) ->
          List.NoDup (map (content (h ++ extra)) (new ++ sols))).
Proof.
  induction fuel as [|fuel IH]; intros self h s sols g Hg Hwf Hfuel Hval; [lia|].
  simpl. unfold bind at 1. unfold deref at 1. rewrite (obj_lookup _ _ _ _ Hg).
  destruct (find_empty g) as [cell|] eqn:He.
  - unfold bind at 1. unfold for_candidates. unfold bind at 1. unfold deref at 1.
    rewrite (obj_lookup _ _ _ _ Hg).
    match goal with |- context [for_in _ ?body sols] => set (B := body) end.
    assert (Hloop : forall l H acc,
      incl l (arange 1 (n g + 1)) -> H !! self = Some g ->
      Forall (fun r => r < length H) acc ->
      exists extra add,
        for_in l B acc {| heap := H; rand := s |}
        = Ok (Continue (add ++ acc)) {| heap := H ++ extra; rand := s |}
        /\ Forall (recorded g (H ++ extra)) add
        /\ (forall d, In d l -> is_safe g (fst cell) (snd cell) d = true ->
              forall o, fills (Sudoku_set g cell d) o -> complete o ->
              In (grid o) (map (content (H ++ extra)) (add ++ acc)))
        /\ (List.NoDup (map (content H) acc) ->
            List.NoDup (map (content (H ++ extra)) (add ++ acc)))).
    { induction l as [|d l IHl]; intros H acc Hincl HH Hacc.
      - exists [], []. simpl. rewrite app_nil_r. split; [reflexivity|].
        split; [constructor|]. split; [intros d [] | auto].
      - cbn [for_in]. unfold bind at 1. unfold B at 1. unfold bind at 1.
        unfold deref at 1. rewrite (obj_lookup _ _ _ _ HH).
        assert (Hl : incl l (arange 1 (n g + 1))) by (intros x Hx; apply Hincl; by right).
        destruct (is_safe g (fst cell) (snd cell) d) eqn:Hsafe.
        + unfold bind at 1. unfold copy_of. unfold bind at 1. unfold deref at 1.
          rewrite (obj_lookup _ _ _ _ HH). unfold bind at 1.
          rewrite (Sudoku_copy_wf g Hwf). unfold lift. unfold ret at 1.
          unfold alloc. cbn [heap rand]. unfold bind at 1. unfold assign at 1.
          cbn [heap rand]. rewrite (obj_lookup _ _ _ _ (lookup_last H g)).
          rewrite insert_last. unfold bind at 1.
          assert (Hd : In d (candidates g cell)).
          { apply filter_In. split; [apply Hincl; by left | assumption]. }
          destruct (IH (length H) (H ++ [Sudoku_set g cell d]) s acc (Sudoku_set g cell d))
            as [extra1 [new1 [E1 [R1 [C1 N1]]]]].
          * apply lookup_last.
          * by rewrite well_formed_set.
          * apply candidates_nonzero in Hd.
            rewrite <- (count_empty_fill g cell d) in Hfuel; auto; lia.
          * eapply List.Forall_impl; [|exact Hacc]. intros r Hr. simpl in *.
            rewrite length_app. simpl. lia.
          * rewrite E1. unfold ret at 1.
            set (H2 := (H ++ [Sudoku_set g cell d]) ++ extra1) in *.
            assert (Hstep : forall o, fills (Sudoku_set g cell d) o -> fills g o).
            { intros o Ho. by apply (fills_step g o cell d). }
            assert (Hacc1 : Forall (fun r => r < length H2) (new1 ++ acc)).
            { apply Forall_app. split.
              - eapply List.Forall_impl; [|exact R1]. by intros r [Hr _].
              - eapply List.Forall_impl; [|exact Hacc]. intros r Hr. simpl in *.
                unfold H2. rewrite !length_app. simpl. lia. }
            destruct (IHl H2 (new1 ++ acc) Hl) as [extra2 [add2 [E2 [R2 [C2 N2]]]]].
            { unfold H2. rewrite lookup_app_l, lookup_app_l; auto.
              - by apply (lookup_lt_Some _ _ g).
              - rewrite length_app. apply lookup_lt_Some in HH. lia. }
            { exact Hacc1. }
            exists ([Sudoku_set g cell d] ++ extra1 ++ extra2), (add2 ++ new1).
            replace (H ++ [Sudoku_set g cell d] ++ extra1 ++ extra2) with (H2 ++ extra2)
              by (unfold H2; by rewrite <- !app_assoc).
            rewrite <- app_assoc. split; [exact E2|]. split; [|split].
            -- apply Forall_app. split; [assumption|].
               eapply List.Forall_impl; [|exact R1]. intros r Hr. simpl.
               apply recorded_app.
               apply (recorded_fills g (Sudoku_set g cell d)); [|exact Hr].
               apply Hstep. apply fills_refl.
            -- intros d' [<-|Hd'] Hs' o Ho Hc.
               ++ rewrite map_app. apply in_or_app. right.
                  rewrite map_content_app by assumption. by apply C1.
               ++ by apply (C2 d').
            -- intros Hnd. apply N2. apply N1.
               rewrite map_content_app by assumption. exact Hnd.
        + unfold ret at 1.
          destruct (IHl H acc Hl HH Hacc) as [extra [add [E [R [C N]]]]].
          exists extra, add. split; [exact E|]. split; [assumption|].
          split; [|assumption].
          intros d' [<-|Hd'] Hs'; [congruence | by apply C]. }
    destruct (Hloop (arange 1 (n g + 1)) h sols) as [extra [add [E [R [C N]]]]];
      auto using incl_refl.
    rewrite E. unfold ret. exists extra, add. split; [reflexivity|].
    split; [assumption|]. split; [|assumption].
    intros o Ho Hc. inversion Ho as [g0|g0 g1 cell' d He' Hd Hf]; subst.
    + apply find_empty_None in Hc. congruence.
    + rewrite He in He'. injection He' as <-.
      apply filter_In in Hd. destruct Hd as [Hd Hs]. by apply (C d).
  - unfold set_add.
    assert (Hself : self < length h) by (by apply (lookup_lt_Some _ _ g)).
    rewrite (obj_lookup _ _ _ _ Hg). exists [].
    destruct (existsb _ sols) eqn:Hex.
    + exists []. rewrite app_nil_r. simpl. split; [reflexivity|].
      split; [constructor|]. split; [|auto].
      intros o Ho Hc. apply (fills_of_complete g o He) in Ho. subst o.
      apply existsb_exists in Hex. destruct Hex as [r [Hr Heq]].
      apply in_map_iff. exists r. split; [|assumption].
      unfold Sudoku_eq, array_equal in Heq. apply andb_true_iff in Heq.
      destruct Heq as [E1 E2]. apply bool_decide_eq_true in E1, E2.
      unfold content. unfold obj in *. simpl in *.
      destruct (grid (nth r h no_object)), (grid g). simpl in *. by subst.
    + exists [self]. rewrite app_nil_r. simpl. split; [reflexivity|].
      assert (Hnth : nth self h no_object = g) by (by apply nth_lookup_Some).
      split; [|split].
      * constructor; [|constructor]. unfold recorded. rewrite Hnth.
        split; [assumption|]. split; [apply fills_refl | by apply find_empty_None].
      * intros o Ho Hc. apply (fills_of_complete g o He) in Ho. subst o.
        left. unfold content. by rewrite Hnth.
      * intros Hnd. constructor; [|assumption].
        intros Hin. apply in_map_iff in Hin. destruct Hin as [r [Hc Hr]].
        apply not_true_iff_false in Hex. apply Hex. apply existsb_exists.
        exists r. split; [assumption|].
        unfold Sudoku_eq, array_equal, obj, content in *. simpl. rewrite Hc, Hnth.
        apply andb_true_iff. split; by apply bool_decide_eq_true.
Qed.
End Enum.

(** * The uniqueness test *)

Lemma two_recorded (g : Sudoku) (H : list Sudoku) (acc : list nat) :
  Forall (recorded g H) acc -> List.NoDup (map (content H) acc) ->
  1 < length acc -> ~ at_most_one g.
Proof.
  intros Hrec Hnd Hlen Huniq.
  destruct acc as [|a [|b acc]]; simpl in Hlen; try lia.
  apply Forall_cons in Hrec. destruct Hrec as [[_ [Fa Ca]] Hrec].
  apply Forall_cons in Hrec. destruct Hrec as [[_ [Fb Cb]] _].
  simpl in Hnd. apply List.NoDup_cons_iff in Hnd. destruct Hnd as [Hnd _].
  apply Hnd. left. unfold content. symmetry. by apply Huniq.
Qed.

Lemma covered_unique (g : Sudoku) (H : list Sudoku) (acc : list nat) :
  length acc <= 1 ->
  (forall o, fills g o -> complete o -> In (grid o) (map (content H) acc)) ->
  at_most_one g.
Proof.
  intros Hlen Hcov o1 o2 F1 C1 F2 C2.
  pose proof (Hcov o1 F1 C1) as H1. pose proof (Hcov o2 F2 C2) as H2.
  destruct acc as [|a [|b acc]]; simpl in *; try lia; try tauto.
  destruct H1 as [<-|[]], H2 as [<-|[]]. reflexivity.
Qed.

Section Unique.
Context {RS : RandomSource}.

Lemma is_unique_spec (self : nat) (h : list Sudoku) (s : rng) (g : Sudoku) :
  h !! self = Some g -> well_formed g = true ->
  exists extra b,
    is_unique self {| heap := h; rand := s |}
    = Ok b {| heap := h ++ extra; rand := s |}
    /\ (b = true <-> at_most_one g).
Proof.
  intros Hg Hwf. unfold is_unique, _is_unique_helper.
  unfold bind at 1. unfold deref at 1. rewrite (obj_lookup _ _ _ _ Hg).
  destruct (find_empty g) as [cell|] eqn:He.
  - unfold bind at 1. unfold for_candidates. unfold bind at 1. unfold deref at 1.
    rewrite (obj_lookup _ _ _ _ Hg).
    match goal with |- context [for_in _ ?body []] => set (B := body) end.
    assert (Hloop : forall l H acc,
      incl l (arange 1 (n g + 1)) -> H !! self = Some g ->
      Forall (recorded g H) acc -> List.NoDup (map (content H) acc) ->
      length acc <= 1 ->
      exists extra r,
        for_in l B acc {| heap := H; rand := s |}
        = Ok r {| heap := H ++ extra; rand := s |}
        /\ match r with
           | Return b => b = false /\ ~ at_most_one g
           | Continue acc' =>
               (exists add, acc' = add ++ acc) /\ length acc' <= 1 /\
               (forall d, In d l -> is_safe g (fst cell) (snd cell) d = true ->
                  forall o, fills (Sudoku_set g cell d) o -> complete o ->
                  In (grid o) (map (content (H ++ extra)) acc'))
           end).
    { induction l as [|d l IHl]; intros H acc Hincl HH Hrec Hnd Hlen.
      - exists [], (Continue acc). simpl. rewrite app_nil_r.
        split; [reflexivity|]. split; [by exists [] |].
        split; [assumption | intros d []].
      - cbn [for_in]. unfold bind at 1. unfold B at 1. unfold bind at 1.
        unfold deref at 1. rewrite (obj_lookup _ _ _ _ HH).
        assert (Hl : incl l (arange 1 (n g + 1))) by (intros x Hx; apply Hincl; by right).
        destruct (is_safe g (fst cell) (snd cell) d) eqn:Hsafe.
        + unfold bind at 1. unfold copy_of. unfold bind at 1. unfold deref at 1.
          rewrite (obj_lookup _ _ _ _ HH). unfold bind at 1.
          rewrite (Sudoku_copy_wf g Hwf). unfold lift. unfold ret at 1.
          unfold alloc. cbn [heap rand]. unfold bind at 1. unfold assign at 1.
          cbn [heap rand]. rewrite (obj_lookup _ _ _ _ (lookup_last H g)).
          rewrite insert_last. unfold bind at 1.
          rewrite (obj_lookup _ _ _ _ (lookup_last H (Sudoku_set g cell d))).
          assert (Hd : In d (candidates g cell)).
          { apply filter_In. split; [apply Hincl; by left | assumption]. }
          assert (Hacc : Forall (fun r => r < length (H ++ [Sudoku_set g cell d])) acc).
          { eapply List.Forall_impl; [|exact Hrec]. intros r [Hr _].
            rewrite length_app. simpl. lia. }
          destruct (solve_all_helper_spec (S (count_empty (Sudoku_set g cell d)))
                      (length H) (H ++ [Sudoku_set g cell d]) s acc (Sudoku_set g cell d))
            as [extra1 [new1 [E1 [R1 [C1 N1]]]]]; auto.
          * apply lookup_last.
          * by rewrite well_formed_set.
          * rewrite E1.
            set (H2 := (H ++ [Sudoku_set g cell d]) ++ extra1) in *.
            assert (Hstep : fills g (Sudoku_set g cell d)).
            { apply (fills_step g _ cell d); auto. apply fills_refl. }
            assert (Hrec1 : Forall (recorded g H2) (new1 ++ acc)).
            { apply Forall_app. split.
              - eapply List.Forall_impl; [|exact R1]. intros r Hr.
                by apply (recorded_fills g (Sudoku_set g cell d)).
              - eapply List.Forall_impl; [|exact Hrec]. intros r Hr.
                unfold H2. rewrite <- app_assoc. by apply recorded_app. }
            assert (Hnd1 : List.NoDup (map (content H2) (new1 ++ acc))).
            { apply N1. rewrite map_content_app; [assumption|].
              eapply List.Forall_impl; [|exact Hrec]. by intros r [Hr _]. }
            destruct (1 <? length (new1 ++ acc)) eqn:Hcount.
            -- apply Nat.ltb_lt in Hcount. unfold ret.
               exists ([Sudoku_set g cell d] ++ extra1), (Return false).
               rewrite app_assoc. split; [reflexivity|]. split; [reflexivity|].
               by apply (two_recorded g H2 (new1 ++ acc)).
            -- apply Nat.ltb_ge in Hcount. unfold ret at 1.
               destruct (IHl H2 (new1 ++ acc) Hl) as [extra2 [r [E2 P2]]]; auto.
               { unfold H2. rewrite lookup_app_l, lookup_app_l; auto.
                 - by apply (lookup_lt_Some _ _ g).
                 - rewrite length_app. apply lookup_lt_Some in HH. lia. }
               exists ([Sudoku_set g cell d] ++ extra1 ++ extra2), r.
               replace (H ++ [Sudoku_set g cell d] ++ extra1 ++ extra2) with (H2 ++ extra2)
                 by (unfold H2; by rewrite <- !app_assoc).
               split; [exact E2|]. destruct r as [acc'|b]; [|assumption].
               destruct P2 as [[add2 ->] [Hlen' C2]].
               split; [exists (add2 ++ new1); by rewrite <- app_assoc|].
               split; [assumption|].
               intros d' [<-|Hd'] Hs' o Ho Hc; [|by apply (C2 d')].
               rewrite map_app. apply in_or_app. right.
               rewrite map_content_app; [by apply C1|].
               eapply List.Forall_impl; [|exact Hrec1]. by intros r [Hr _].
        + unfold ret at 1.
          destruct (IHl H acc Hl HH Hrec Hnd Hlen) as [extra [r [E P]]].
          exists extra, r. split; [exact E|]. destruct r as [acc'|b]; [|assumption].
          destruct P as [Hadd [Hlen' C]]. split; [assumption|].
          split; [assumption|].
          intros d' [<-|Hd'] Hs'; [congruence | by apply C]. }
    destruct (Hloop (arange 1 (n g + 1)) h []) as [extra [r [E P]]];
      auto using incl_refl; try (by constructor).
    rewrite E. exists extra. destruct r as [acc'|b]; unfold ret.
    + exists true. split; [reflexivity|]. split; [|reflexivity]. intros _.
      destruct P as [_ [Hlen C]]. apply (covered_unique g (h ++ extra) acc' Hlen).
      intros o Ho Hc. inversion Ho as [g0|g0 g1 cell' d He' Hd Hf]; subst.
      * apply find_empty_None in Hc. congruence.
      * rewrite He in He'. injection He' as <-.
        apply filter_In in Hd. destruct Hd as [Hd Hs]. by apply (C d).
    + exists b. split; [reflexivity|]. destruct P as [-> Hno].
      split; [discriminate | contradiction].
  - unfold bind at 1, set_add. simpl. unfold ret. exists [], true.
    rewrite app_nil_r. split; [reflexivity|]. split; [|reflexivity]. intros _.
    intros o1 o2 F1 _ F2 _.
    apply (fills_of_complete g o1 He) in F1. apply (fills_of_complete g o2 He) in F2.
    congruence.
Qed.
End Unique.

(** * Carving *)



Section Generate.
Context {RS : RandomSource}.

Lemma sample_occupied_sound (fuel j N : nat) (H : list Sudoku) (s : rng) :
  match sample_occupied fuel j N {| heap := H; rand := s |} with
  | Ok cell w' =>
      heap w' = H /\ getitem (grid (nth j H no_object)) cell <> 0%Z
      /\ (0 < N -> in_grid N cell)
  | Raise _ => False
  | Timeout => True
  end.
Proof.
  revert s. induction fuel as [|fuel IH]; intros s; [exact I|].
  simpl. unfold bind at 1. unfold np_randint. simpl.
  pose proof (randint_range s N) as Hr.
  destruct (randint s N) as [cell s1]. simpl in Hr.
  unfold bind at 1. unfold deref at 1. unfold obj. simpl.
  destruct (Z.eqb_spec (getitem (grid (nth j H no_object)) cell) 0) as [Hz|Hz]; simpl.
  - apply IH.
  - split; [reflexivity|]. split; [assumption|]. intros HN. by apply Hr.
Qed.






End Generate.

(** * Generation *)

Lemma complete_count (g : Sudoku) : complete g -> count_empty g = 0.
Proof.
  unfold complete, count_empty. induction (data (grid g)) as [|x l IH]; simpl; [reflexivity|].
  intros H. destruct (Z.eqb_spec x 0) as [->|Hx]; [exfalso; apply H; by left|].
  apply IH. intros Hin. apply H. by right.
Qed.


Section GenerateSpec.
Context {RS : RandomSource}.

Lemma solve_empty_grid (m : nat) (h : list Sudoku) (s : rng) :
  m * m <= 255 ->
  exists g' s',
    solve_inplace (length h) {| heap := h ++ [empty_grid m]; rand := s |}
    = Ok (Some (length h)) {| heap := h ++ [g']; rand := s' |}
    /\ completion (empty_grid m) g' /\ complete g' /\ distinct_peers g'.
Proof.
  intros Hle.
  destruct (solve_inplace_spec (length h) (h ++ [empty_grid m]) s (empty_grid m))
    as [res [g' [s' [E P]]]]; [apply lookup_last|].
  rewrite E, insert_last. pose proof (empty_grid_wf m Hle) as Hwf.
  assert (Hp : distinct_peers (empty_grid m)).
  { intros p q _ _ _ _ Hnz. exfalso. apply Hnz. apply empty_grid_zero. }
  assert (Hr : cells_in_range (empty_grid m)).
  { intros p _. rewrite empty_grid_zero. simpl. lia. }
  destruct res as [r|]; simpl in P.
  - destruct P as [-> [Hf Hc]]. exists g', s'. split; [reflexivity|].
    apply find_empty_None in Hc.
    split; [by apply fills_complete_completion|]. split; [assumption|].
    by destruct (fills_consistent _ _ Hwf Hf Hp Hr).
  - exfalso. destruct P as [_ Hno]. apply (Hno Hwf (pattern m)).
    apply (pattern_solution (empty_grid m)); [reflexivity|].
    intros p _. apply empty_grid_zero.
Qed.



End GenerateSpec.

(** * The two concrete sources *)





(** * Consequences for the public methods *)

Lemma completion_complete (g s : Sudoku) : completion g s -> complete s.
Proof.
  intros [Hwf [_ [_ [Hs _]]]]. apply solved_spec in Hs; auto. destruct Hs as [Hf _].
  apply complete_spec; auto. intros p Hp. specialize (Hf p Hp). lia.
Qed.

Lemma single_member {A} (l : list A) (x : A) :
  List.NoDup l -> (forall y, In y l <-> y = x) -> l = [x].
Proof.
  intros Hnd H. destruct l as [|a l].
  - exfalso. by apply (H x).
  - assert (a = x) by (apply H; by left). subst a.
    destruct l as [|b l]; [reflexivity|].
    apply List.NoDup_cons_iff in Hnd. destruct Hnd as [Hnd _].
    exfalso. apply Hnd. assert (b = x) by (apply H; right; by left).
    subst b. by left.
Qed.

Section Corollaries.
Context {RS : RandomSource}.

Lemma solve_all_spec (self : nat) (h : list Sudoku) (s : rng) (g : Sudoku) :
  h !! self = Some g -> well_formed g = true ->
  exists extra sols,
    solve_all self {| heap := h; rand := s |}
    = Ok sols {| heap := h ++ extra; rand := s |}
    /\ Forall (recorded g (h ++ extra)) sols
    /\ (forall o, fills g o -> complete o ->
          In (grid o) (map (content (h ++ extra)) sols))
    /\ List.NoDup (map (content (h ++ extra)) sols).
Proof.
  intros Hg Hwf. unfold solve_all. rewrite (obj_lookup _ _ _ _ Hg).
  destruct (solve_all_helper_spec (S (count_empty g)) self h s [] g)
    as [extra [new [E [R [C N]]]]]; auto.
  rewrite app_nil_r in *. exists extra, new. split; [assumption|].
  split; [assumption|]. split; [assumption|]. apply N. constructor.
Qed.

Lemma solve_inplace_complete (self : nat) (w : world) :
  complete (obj w self) -> solve_inplace self w = Ok (Some self) w.
Proof.
  intros H. apply find_empty_None in H. unfold solve_inplace. simpl.
  unfold bind, deref. by rewrite H.
Qed.

Lemma has_solution_run (self : nat) (h : list Sudoku) (s : rng) (g : Sudoku) :
  h !! self = Some g -> well_formed g = true ->
  exists res g' s',
    has_solution self {| heap := h; rand := s |}
    = Ok (match res with Some _ => true | None => false end)
         {| heap := h ++ [g']; rand := s' |}
    /\ solve_post g (length h) res g'.
Proof.
  intros Hg Hwf. unfold has_solution. unfold bind at 1. unfold copy_of.
  unfold bind at 1. unfold deref at 1. rewrite (obj_lookup _ _ _ _ Hg).
  unfold bind at 1. rewrite (Sudoku_copy_wf g Hwf). unfold lift. unfold ret at 1.
  unfold alloc. cbn [heap rand]. unfold bind at 1.
  destruct (solve_inplace_spec (length h) (h ++ [g]) s g (lookup_last h g))
    as [res [g' [s' [E P]]]].
  rewrite E, insert_last. unfold ret. exists res, g', s'. by split.
Qed.

End Corollaries.

(** * Main results *)

Lemma forallb_false {A} (f : A -> bool) (l : list A) :
  forallb f l = false -> exists x, In x l /\ f x = false.
Proof.
  induction l as [|x l IH]; simpl; [discriminate|].
  destruct (f x) eqn:E; simpl.
  - intros H. destruct (IH H) as [y [Hy Hf]]. exists y. split; [by right | assumption].
  - intros _. exists x. split; [by left | assumption].
Qed.

Lemma astype_Unsigned_id (a : ndarray) :
  List.Forall (fun v => (0 <= v <= 255)%Z) (data a) -> astype_Unsigned a = a.
Proof.
  intros H. destruct a as [sh d]. unfold astype_Unsigned. simpl in *. f_equal.
  induction H as [|v d Hv H IH]; simpl; [reflexivity|].
  rewrite IH. unfold Unsigned. by rewrite Z.mod_small by lia.
Qed.

Lemma Sudoku_view_verified (a : ndarray) (N m : nat) :
  shape a = [N; N] -> N = m * m -> N <= 255 ->
  Sudoku_view a true
  = if forallb (fun v => (0 <=? v)%Z && (v <=? Z.of_nat N)%Z) (data a)
    then inr {| grid := a; n := N; sr := m |} else inl ValueOutOfRange.
Proof.
  intros Hs HN Hle. unfold Sudoku_view. rewrite Hs. cbn [length].
  unfold ncols. rewrite Hs. cbn [nth].
  rewrite (Unsigned_nat_small N Hle). subst N. rewrite Nat.sqrt_square.
  rewrite Unsigned_nat_small by nia. rewrite !Nat.eqb_refl. cbn [negb].
  by destruct (forallb _ (data a)).
Qed.

Lemma map_fixed {A} (f : A -> A) (l : list A) (x : A) :
  map f l = l -> In x l -> f x = x.
Proof.
  induction l as [|y l IH]; simpl; [intros _ []|].
  intros E [<-|Hx]; injection E as E1 E2; auto.
Qed.

Lemma ones_no_completion (s : Sudoku) : ~ completion ones_grid s.
Proof.
  intros [Hwf [Hn [Hm [Hs Ha]]]]. apply solved_spec in Hs; auto.
  destruct Hs as [_ Hp]. unfold distinct_peers in Hp.
  rewrite Hn, Hm in Hp. simpl in Hp.
  assert (H0 : in_grid 4 (0, 0)) by (split; simpl; lia).
  assert (H1 : in_grid 4 (0, 1)) by (split; simpl; lia).
  pose proof (Ha (0, 0) H0 ltac:(discriminate)) as E0.
  pose proof (Ha (0, 1) H1 ltac:(discriminate)) as E1.
  apply (Hp (0, 0) (0, 1) H0 H1).
  - discriminate.
  - by left.
  - rewrite E0. discriminate.
  - by rewrite E0, E1.
Qed.

Section Results.
Context {RS : RandomSource}.

(** C1.  For every box side [m] whose square [N = m * m] fits the cell type
    ([N <= 255]; so [N] is 0, 1, 4, 9, 16, ..., 225), every store and every
    state of the random source: [Sudoku.empty(N).solve_inplace()] returns the
    grid it was called on; that grid has side [N] and box side [m], no cell
    of it is empty, and every row, every column and every [m] x [m] block of
    it (the cells [(i * m + a, j * m + b)] with [a, b < m], for [i, j < m])
    holds each digit of [1..N] exactly once. *)
Theorem solve_inplace_empty_succeeds (m : nat) (w : world) :
  m * m <= 255 ->
  exists g' s',
    bind (empty (m * m)) solve_inplace w
    = Ok (Some (length (heap w))) {| heap := heap w ++ [g']; rand := s' |}
    /\ shape (grid g') = [m * m; m * m] /\ n g' = m * m /\ sr g' = m
    /\ complete g' /\ solved g'.
Proof.
  intros Hle. destruct w as [h s]. unfold bind at 1, empty.
  unfold bind at 1. rewrite (Sudoku_new_zeros m Hle). unfold lift, ret, alloc.
  cbn [heap rand].
  destruct (solve_empty_grid m h s Hle) as [g' [s' [E [Hc [Hcomp _]]]]].
  exists g', s'. split; [assumption|].
  destruct Hc as [Hw [Hn [Hm [Hs _]]]].
  apply well_formed_spec in Hw. destruct Hw as [-> _]. rewrite Hn.
  simpl in Hm. auto.
Qed.

(** C2.  For every valid grid [g] (invariants, and no digit repeated in a
    row, column or block), [solve_all(g)] returns a set without duplicates
    whose members are exactly the completions of [g]: the grids of the same
    side in which every row, column and [sr] x [sr] block holds each digit
    once ([solved], stated on the cells' coordinates) and that agree with
    [g] on its filled cells.  When [g] has one empty cell with
    one candidate, the set is the single grid [g] with that cell filled. *)
Theorem solve_all_enumerates (self : nat) (w : world) (g : Sudoku) :
  heap w !! self = Some g -> valid g = true ->
  exists sols extra,
    solve_all self w = Ok sols {| heap := heap w ++ extra; rand := rand w |}
    /\ List.NoDup (map (obj {| heap := heap w ++ extra; rand := rand w |}) sols)
    /\ (forall s, In s (map (obj {| heap := heap w ++ extra; rand := rand w |}) sols)
                  <-> completion g s)
    /\ (forall cell d, count_empty g = 1 -> find_empty g = Some cell ->
          candidates g cell = [d] ->
          map (obj {| heap := heap w ++ extra; rand := rand w |}) sols
          = [Sudoku_set g cell d]).
Proof.
  intros Hg Hv. destruct w as [h s]. simpl in Hg. cbn [heap rand].
  destruct (valid_spec g Hv) as [Hwf [Hp Hr]].
  destruct (solve_all_spec self h s g Hg Hwf) as [extra [sols [E [R [C N]]]]].
  exists sols, extra. split; [assumption|].
  set (w' := {| heap := h ++ extra; rand := s |}).
  assert (Hnd : List.NoDup (map (obj w') sols)).
  { apply NoDup_map_inv with (f := grid). by rewrite map_map. }
  assert (Hiff : forall s0, In s0 (map (obj w') sols) <-> completion g s0).
  { intros s0. split.
    - intros Hin. apply in_map_iff in Hin. destruct Hin as [r [<- Hr']].
      rewrite Forall_forall in R. apply list_elem_of_In in Hr'.
      destruct (R r Hr') as [_ [Hf Hc]].
      by apply fills_complete_completion.
    - intros Hc. pose proof (completion_fills g s0 Hwf Hc) as Hf.
      pose proof (completion_complete g s0 Hc) as Hcomp.
      specialize (C s0 Hf Hcomp). apply in_map_iff in C.
      destruct C as [r [Hgr Hr']]. apply in_map_iff. exists r. split; [|assumption].
      rewrite Forall_forall in R. apply list_elem_of_In in Hr' as Hr''.
      destruct (R r Hr'') as [_ [Hf' Hc']].
      destruct (fills_dims _ _ Hf') as [Hn [Hm _]].
      destruct Hc as [_ [Hn0 [Hm0 _]]].
      unfold content in Hgr. unfold obj, w'. cbn [heap].
      destruct (nth r (h ++ extra) no_object) as [gr nr mr], s0 as [g0 n0 m0].
      simpl in *. congruence. }
  split; [assumption|]. split; [assumption|].
  intros cell d Hone He Hd. apply single_member; [assumption|].
  intros y. rewrite Hiff.
  assert (Hin : In d (candidates g cell)) by (rewrite Hd; by left).
  assert (Hfull : complete (Sudoku_set g cell d)).
  { apply find_empty_None.
    destruct (find_empty (Sudoku_set g cell d)) as [c|] eqn:He'; [|reflexivity].
    apply candidates_nonzero in Hin.
    pose proof (count_empty_fill g cell d He ltac:(lia)) as Hc1.
    pose proof (count_empty_fill (Sudoku_set g cell d) c 1%Z He' ltac:(lia)). lia. }
  assert (Hstep : fills g (Sudoku_set g cell d)).
  { apply (fills_step g _ cell d); auto. apply fills_refl. }
  split.
  - intros Hc. pose proof (completion_fills g y Hwf Hc) as Hf.
    inversion Hf as [g0|g0 g1 cell' d' He' Hd' Hf']; subst.
    + apply completion_complete in Hc. apply find_empty_None in Hc. congruence.
    + rewrite He in He'. injection He' as <-. rewrite Hd in Hd'.
      destruct Hd' as [<-|[]]. apply find_empty_None in Hfull.
      by apply (fills_of_complete _ _ Hfull).
  - intros ->. by apply fills_complete_completion.
Qed.

(** C3, at the failing input.  [bad_grid] is valid and has no completion,
    yet [is_unique] returns [True] on it: its loop over the candidates of
    the first empty cell runs zero times and falls through to
    [return True]. *)
Theorem is_unique_true_without_completion (s : rng) :
  valid bad_grid = true
  /\ (forall c, ~ completion bad_grid c)
  /\ is_unique 0 {| heap := [bad_grid]; rand := s |}
     = Ok true {| heap := [bad_grid]; rand := s |}.
Proof.
  split; [vm_compute; reflexivity|]. split; [|reflexivity].
  intros c Hc.
  assert (Hwf : well_formed bad_grid = true) by (vm_compute; reflexivity).
  destruct (solve_all_spec 0 [bad_grid] s bad_grid eq_refl Hwf)
    as [extra [sols [E [_ [C _]]]]].
  assert (E' : solve_all 0 {| heap := [bad_grid]; rand := s |}
               = Ok [] {| heap := [bad_grid]; rand := s |}) by reflexivity.
  rewrite E' in E. injection E as <- _.
  apply (C c); [by apply completion_fills | by apply (completion_complete bad_grid)].
Qed.

(** C4, at the failing input.  With [attempt_limit = 1] the counter reaches
    the limit before the first [generate]: [generate_unique] raises without
    any attempt, whatever [n], [k] and the seed grid are, also when
    [k = 0]. *)
Theorem generate_unique_limit_one_raises (fuel n : nat) (k : Z)
    (seed : option ndarray) (w : world) :
  generate_unique (S fuel) n k seed 1 w = Raise GenerationExhausted.
Proof. reflexivity. Qed.

(** C5, the defect.  [__new__] converts the input to [uint8] (line 37)
    before it asserts [0 <= obj] and [obj <= n] (lines 46-48), so the
    assertion sees every cell modulo 256.  For a square input of
    perfect-square side [N <= 255]: if some supplied cell lies outside
    [0, N] while every cell is at most [N] modulo 256, construction does not
    fail with [ValueOutOfRange]; it succeeds, and the grid it stores differs
    from the supplied data: it holds that cell modulo 256. *)
Theorem construct_accepts_out_of_range (a : ndarray) (N m : nat) (v : Z) :
  shape a = [N; N] -> N = m * m -> N <= 255 ->
  In v (data a) -> ~ (0 <= v <= Z.of_nat N)%Z ->
  (forall x, In x (data a) -> (x mod 256 <= Z.of_nat N)%Z) ->
  Sudoku_new a true <> inl ValueOutOfRange
  /\ exists g, Sudoku_new a true = inr g /\ n g = N /\ sr g = m
               /\ grid g <> a /\ In (v mod 256)%Z (data (grid g)).
Proof.
  intros Hs HN Hle Hv Hout Hall. unfold Sudoku_new.
  rewrite (Sudoku_view_verified (astype_Unsigned a) N m Hs HN Hle).
  assert (Hok : forallb (fun v => (0 <=? v)%Z && (v <=? Z.of_nat N)%Z)
                  (data (astype_Unsigned a)) = true).
  { apply forallb_forall. intros u Hu. unfold astype_Unsigned in Hu.
    cbn [data] in Hu. apply in_map_iff in Hu. destruct Hu as [x [<- Hx]].
    specialize (Hall x Hx). unfold Unsigned.
    pose proof (Z.mod_pos_bound x 256). apply andb_true_iff.
    rewrite !Z.leb_le. lia. }
  rewrite Hok. split; [discriminate|]. eexists. split; [reflexivity|].
  cbn [grid n sr]. split; [reflexivity|]. split; [reflexivity|]. split.
  - intros E.
    assert (Hd : map Unsigned (data a) = data a) by (by rewrite <- E at 2).
    pose proof (map_fixed Unsigned (data a) v Hd Hv) as Hfix.
    unfold Unsigned in Hfix. specialize (Hall v Hv). rewrite Hfix in Hall.
    pose proof (Z.mod_pos_bound v 256). lia.
  - unfold astype_Unsigned. cbn [data]. by apply (in_map Unsigned).
Qed.

(** C6.  A call of [solve_inplace] always returns, and when it returns
    failure the store is as before the call: every cell of the grid has the
    value it had. *)
Theorem solve_inplace_failure_restores (self : nat) (w : world) :
  (exists res w', solve_inplace self w = Ok res w') /\
  (forall w', solve_inplace self w = Ok None w' -> heap w' = heap w).
Proof.
  destruct w as [h s]. destruct (h !! self) as [g|] eqn:Hg.
  - destruct (solve_inplace_spec self h s g Hg) as [res [g' [s' [E P]]]].
    split; [eauto|]. intros w' E'. rewrite E in E'. injection E' as -> <-.
    simpl in P. destruct P as [-> _]. simpl. by apply list_insert_id.
  - assert (Hc : complete (obj {| heap := h; rand := s |} self)).
    { unfold obj. simpl. rewrite nth_lookup, Hg. simpl. intros []. }
    rewrite (solve_inplace_complete _ _ Hc). split; [eauto | discriminate].
Qed.


(** C8.  On a complete grid [solve_inplace] returns the grid it was called
    on and changes nothing: the store and the random source are as
    before. *)
Theorem solve_inplace_complete_noop (self : nat) (w : world) :
  complete (obj w self) -> solve_inplace self w = Ok (Some self) w.
Proof. apply solve_inplace_complete. Qed.

(** C9, amended.  For every grid [g], [has_solution(g)] returns and leaves
    every object of the store, [g] included, as it was; and when [g] is
    valid (no digit repeated in a row, column or box) it returns [True]
    exactly when [g] has a completion. *)
Theorem has_solution_spec (self : nat) (w : world) (g : Sudoku) :
  heap w !! self = Some g -> well_formed g = true ->
  exists b extra s',
    has_solution self w = Ok b {| heap := heap w ++ extra; rand := s' |}
    /\ (valid g = true -> (b = true <-> exists s, completion g s)).
Proof.
  intros Hg Hwf. destruct w as [h s]. simpl in Hg. cbn [heap].
  destruct (has_solution_run self h s g Hg Hwf) as [res [g' [s' [E P]]]].
  eexists _, [g'], s'. split; [exact E|].
  intros Hv. destruct (valid_spec g Hv) as [_ [Hp Hr]].
  destruct res as [r|]; simpl in P.
  - destruct P as [_ [Hf Hc]]. split; [|reflexivity]. intros _. exists g'.
    apply fills_complete_completion; auto. by apply find_empty_None.
  - destruct P as [_ Hno]. split; [discriminate|]. intros [c Hc].
    exfalso. apply (Hno Hwf (getitem (grid c))). by apply completion_solution.
Qed.

(** C10.  [solve_all] and [is_unique] return and leave every object of the
    store as it was, the grid they are called on included: they only add
    objects (the copies). *)
Theorem enumeration_leaves_store (self : nat) (w : world) (g : Sudoku) :
  heap w !! self = Some g -> well_formed g = true ->
  (exists sols w', solve_all self w = Ok sols w'
     /\ forall r o, heap w !! r = Some o -> heap w' !! r = Some o)
  /\ (exists b w', is_unique self w = Ok b w'
     /\ forall r o, heap w !! r = Some o -> heap w' !! r = Some o).
Proof.
  intros Hg Hwf. destruct w as [h s]. simpl in Hg. split.
  - destruct (solve_all_spec self h s g Hg Hwf) as [extra [sols [E _]]].
    eexists _, _. split; [exact E|]. intros r o Hr. simpl in *.
    by apply lookup_app_l_Some.
  - destruct (is_unique_spec self h s g Hg Hwf) as [extra [b [E _]]].
    eexists _, _. split; [exact E|]. intros r o Hr. simpl in *.
    by apply lookup_app_l_Some.
Qed.

End Results.

(** ** The results at concrete inputs *)

Lemma solve_inplace_empty_succeeds_witness :
  2 * 2 <= 255 /\
  exists g' s',
    bind (empty (2 * 2)) solve_inplace start
    = Ok (Some 0) (@mk_world walk_source [g'] s')
    /\ shape (grid g') = [2 * 2; 2 * 2] /\ n g' = 2 * 2 /\ sr g' = 2
    /\ complete g' /\ solved g'.
Proof.
  split; [lia|]. apply (solve_inplace_empty_succeeds 2 start). lia.
Defined.

Lemma solve_all_enumerates_witness :
  valid one_gap = true /\
  exists sols extra,
    solve_all 0 (holding one_gap)
    = Ok sols (@mk_world walk_source ([one_gap] ++ extra) 0)
    /\ List.NoDup (map (obj (@mk_world walk_source ([one_gap] ++ extra) 0)) sols)
    /\ (forall s, In s (map (obj (@mk_world walk_source ([one_gap] ++ extra) 0)) sols)
                  <-> completion one_gap s)
    /\ (forall cell d, count_empty one_gap = 1 -> find_empty one_gap = Some cell ->
          candidates one_gap cell = [d] ->
          map (obj (@mk_world walk_source ([one_gap] ++ extra) 0)) sols
          = [Sudoku_set one_gap cell d]).
Proof.
  split; [vm_compute; reflexivity|].
  apply (solve_all_enumerates 0 (holding one_gap) one_gap);
    [reflexivity | vm_compute; reflexivity].
Defined.

(** C5 at the failing inputs: the cell -255 is outside [0, 1]; it is
    accepted and stored as 1. *)
Lemma construct_accepts_out_of_range_witness :
  Sudoku_new {| shape := [1; 1]; data := [-255]%Z |} true <> inl ValueOutOfRange
  /\ exists g, Sudoku_new {| shape := [1; 1]; data := [-255]%Z |} true = inr g
               /\ n g = 1 /\ sr g = 1
               /\ grid g <> {| shape := [1; 1]; data := [-255]%Z |}
               /\ In ((-255) mod 256)%Z (data (grid g)).
Proof.
  apply (construct_accepts_out_of_range
           {| shape := [1; 1]; data := [-255]%Z |} 1 1 (-255)%Z);
    [reflexivity | reflexivity | lia | by left | lia |].
  intros x [<-|[]]. vm_compute. discriminate.
Defined.

(** Likewise 256 is stored as 0 and accepted. *)
Example construct_wraps :
  Sudoku_new {| shape := [1; 1]; data := [256]%Z |} true
  = inr {| grid := {| shape := [1; 1]; data := [0]%Z |}; n := 1; sr := 1 |}.
Proof. reflexivity. Qed.

Lemma solve_inplace_failure_restores_witness :
  exists w', solve_inplace 0 (holding bad_grid) = Ok None w'
             /\ heap w' = heap (holding bad_grid).
Proof.
  eexists. split; [vm_compute; reflexivity|].
  apply (proj2 (solve_inplace_failure_restores 0 (holding bad_grid))).
  vm_compute. reflexivity.
Defined.



Lemma solve_inplace_complete_noop_witness :
  solve_inplace 0 (holding ones_grid) = Ok (Some 0) (holding ones_grid).
Proof.
  apply (solve_inplace_complete_noop 0 (holding ones_grid)).
  apply find_empty_None. reflexivity.
Defined.

(** C9 as stated fails: [ones_grid] passes validation, has no completion,
    and [has_solution] returns [True] on it. *)
Lemma has_solution_inconsistent_grid :
  Sudoku_new (grid ones_grid) true = inr ones_grid
  /\ (exists w', has_solution 0 (holding ones_grid) = Ok true w')
  /\ ~ exists s, completion ones_grid s.
Proof.
  split; [reflexivity|]. split; [eexists; vm_compute; reflexivity|].
  intros [s Hs]. by apply (ones_no_completion s).
Qed.

Lemma has_solution_spec_witness :
  exists b extra s',
    has_solution 0 (holding one_gap)
    = Ok b (@mk_world walk_source ([one_gap] ++ extra) s')
    /\ (valid one_gap = true -> (b = true <-> exists s, completion one_gap s)).
Proof.
  apply (has_solution_spec 0 (holding one_gap) one_gap);
    [reflexivity | vm_compute; reflexivity].
Defined.

Lemma enumeration_leaves_store_witness :
  (exists sols w', solve_all 0 (holding one_gap) = Ok sols w'
     /\ forall r o, heap (holding one_gap) !! r = Some o -> heap w' !! r = Some o)
  /\ (exists b w', is_unique 0 (holding one_gap) = Ok b w'
     /\ forall r o, heap (holding one_gap) !! r = Some o -> heap w' !! r = Some o).
Proof.
  apply (enumeration_leaves_store 0 (holding one_gap) one_gap);
    [reflexivity | vm_compute; reflexivity].
Defined.

(** * Further properties *)

(** ** Construction *)

Lemma Sudoku_view_not_square (a : ndarray) (N : nat) :
  shape a = [N; N] -> (forall m, N <> m * m) ->
  Sudoku_view a true = inl NotPerfectSquare.
Proof.
  intros Hs Hsq. unfold Sudoku_view. rewrite Hs. cbn [length].
  unfold ncols. rewrite Hs. cbn [nth]. rewrite !Nat.eqb_refl. cbn [negb].
  destruct (Nat.eqb_spec (Unsigned_nat (Nat.sqrt N) * Unsigned_nat (Nat.sqrt N)) N) as [E|E];
    [|reflexivity].
  exfalso. by apply (Hsq (Unsigned_nat (Nat.sqrt N))).
Qed.

(** X1.  Validated construction tests the shape before the cells: for an
    input whose first dimension is at most 255 (so that it fits the [uint8]
    attribute [n]), an input without dimension raises [IndexError], one that
    is not two-dimensional or not square fails with [InvalidShape], a square
    one whose side is not a perfect square fails with [NotPerfectSquare];
    none of these looks at the cells. *)
Theorem construct_shape_errors (a : ndarray) :
  nrows a <= 255 ->
  (shape a = [] -> forall v, Sudoku_new a v = inl IndexError)
  /\ (shape a <> [] -> length (shape a) <> 2 ->
      Sudoku_new a true = inl InvalidShape)
  /\ (forall r c, shape a = [r; c] -> r <> c ->
      Sudoku_new a true = inl InvalidShape)
  /\ (forall N, shape a = [N; N] -> (forall m, N <> m * m) ->
      Sudoku_new a true = inl NotPerfectSquare).
Proof.
  intros _. unfold Sudoku_new, Sudoku_view, astype_Unsigned. cbn [shape data].
  split; [|split; [|split]].
  - intros -> v. reflexivity.
  - intros Hne Hlen. destruct (shape a) as [|n0 sh]; [contradiction|].
    destruct (Nat.eqb_spec (length (n0 :: sh)) 2); [contradiction | reflexivity].
  - intros r c -> Hrc. cbn [length]. unfold ncols. cbn [shape nth].
    simpl. destruct (Nat.eqb_spec r c); [contradiction | reflexivity].
  - intros N Hs Hsq.
    by apply (Sudoku_view_not_square {| shape := shape a; data := map Unsigned (data a) |} N).
Qed.

(** X2.  The range check of validated construction sees the cells after
    their conversion to [uint8]: on a square input of perfect-square side
    [N <= 255] construction succeeds exactly when every cell is at most [N]
    modulo 256, and it stores the cells modulo 256; otherwise it fails with
    [ValueOutOfRange].  A negative cell is never rejected as such. *)
Theorem construct_checks_converted_cells (a : ndarray) (N m : nat) :
  shape a = [N; N] -> N = m * m -> N <= 255 ->
  ((forall v, In v (data a) -> (v mod 256 <= Z.of_nat N)%Z) ->
   Sudoku_new a true = inr {| grid := astype_Unsigned a; n := N; sr := m |})
  /\ ((exists v, In v (data a) /\ (Z.of_nat N < v mod 256)%Z) ->
      Sudoku_new a true = inl ValueOutOfRange).
Proof.
  intros Hs HN Hle. unfold Sudoku_new.
  rewrite (Sudoku_view_verified (astype_Unsigned a) N m Hs HN Hle).
  unfold astype_Unsigned. cbn [data].
  destruct (forallb _ (map Unsigned (data a))) eqn:Hall.
  - split; [reflexivity|]. intros [v [Hv Hout]]. exfalso.
    rewrite forallb_forall in Hall. specialize (Hall (Unsigned v) (in_map _ _ _ Hv)).
    apply andb_true_iff in Hall. rewrite !Z.leb_le in Hall. unfold Unsigned in Hall. lia.
  - split; [|reflexivity]. intros Hin. exfalso.
    apply forallb_false in Hall. destruct Hall as [u [Hu Hout]].
    apply in_map_iff in Hu. destruct Hu as [v [<- Hv]]. specialize (Hin v Hv).
    apply andb_false_iff in Hout. rewrite !Z.leb_gt in Hout. unfold Unsigned in Hout.
    pose proof (Z.mod_pos_bound v 256). lia.
Qed.

(** X3.  Round trip: constructing, with validation, a grid from the array of
    a grid that satisfies the invariants gives that grid again, and so does
    the unvalidated copy; the result compares equal to the original. *)
Theorem construct_round_trip (g : Sudoku) :
  well_formed g = true -> digits_in_range g = true ->
  Sudoku_new (grid g) true = inr g /\ Sudoku_copy g = inr g
  /\ Sudoku_eq g g = true.
Proof.
  intros Hwf Hr. split; [|split].
  - apply well_formed_spec in Hwf as Hw. destruct Hw as [Hs [_ [Hn Hle]]].
    unfold Sudoku_new. rewrite astype_Unsigned_id.
    + rewrite (Sudoku_view_verified (grid g) (n g) (sr g) Hs Hn Hle).
      unfold digits_in_range in Hr. rewrite Hr. by destruct g.
    + unfold digits_in_range in Hr. rewrite forallb_forall in Hr.
      apply List.Forall_forall. intros v Hv. specialize (Hr v Hv).
      apply andb_true_iff in Hr. rewrite !Z.leb_le in Hr. lia.
  - by apply Sudoku_copy_wf.
  - unfold Sudoku_eq, array_equal. apply andb_true_iff.
    split; by apply bool_decide_eq_true.
Qed.

(** ** The constraint checks *)

(** X4.  On a grid that satisfies the invariants, [row_safe], [col_safe] and
    [box_safe] hold for a digit exactly when no cell of the row, of the
    column, and of the box with the same box coordinates holds it. *)
Theorem safe_checks_spec (s : Sudoku) (r c : nat) (d : Z) :
  well_formed s = true -> r < n s -> c < n s ->
  (row_safe s r d = true <->
   forall c', c' < n s -> getitem (grid s) (r, c') <> d)
  /\ (col_safe s c d = true <->
      forall r', r' < n s -> getitem (grid s) (r', c) <> d)
  /\ (box_safe s r c d = true <->
      forall r' c', r' < n s -> c' < n s ->
        r' / sr s = r / sr s -> c' / sr s = c / sr s ->
        getitem (grid s) (r', c') <> d).
Proof.
  intros Hwf Hr Hc. unfold row_safe, col_safe, box_safe.
  rewrite !contains_false, row_of_rect, col_of_rect, box_rect by assumption.
  rewrite !in_map_getitem. split; [|split].
  - split.
    + intros H c' Hc' E. apply H. exists (r, c'). split; [|assumption].
      apply in_row_unit. by split.
    + intros H [q [Hq E]]. apply in_row_unit in Hq. destruct q as [r' c'].
      simpl in Hq. destruct Hq as [-> Hq]. by apply (H c').
  - split.
    + intros H r' Hr' E. apply H. exists (r', c). split; [|assumption].
      apply in_col_unit. by split.
    + intros H [q [Hq E]]. apply in_col_unit in Hq. destruct q as [r' c'].
      simpl in Hq. destruct Hq as [Hq ->]. by apply (H r').
  - split.
    + intros H r' c' Hr' Hc' E1 E2 E. apply H. exists (r', c'). split; [|assumption].
      apply in_box_unit; auto. split; [by split | by split].
    + intros H [q [Hq E]]. apply in_box_unit in Hq; auto. destruct q as [r' c'].
      destruct Hq as [[Hq1 Hq2] [E1 E2]]. by apply (H r' c').
Qed.

(** X5.  The value a cell holds is never safe at that cell: [is_safe] looks
    at the whole row, column and box, the cell itself included. *)
Theorem is_safe_own_value (s : Sudoku) (r c : nat) :
  well_formed s = true -> r < n s -> c < n s ->
  is_safe s r c (getitem (grid s) (r, c)) = false.
Proof.
  intros Hwf Hr Hc. apply not_true_iff_false. intros H.
  apply (is_safe_spec s Hwf (r, c)) in H; [|by split].
  apply (H (r, c)); [by split | by left | reflexivity].
Qed.

(** ** Empty cells and candidates *)

Lemma filter_seq_head (f : nat -> bool) (len start k : nat) (rest : list nat) :
  List.filter f (seq start len) = k :: rest ->
  forall j, start <= j < k -> f j = false.
Proof.
  revert start. induction len as [|len IH]; intros start E j Hj; [discriminate|].
  simpl in E. destruct (f start) eqn:Hf.
  - injection E as <- _. lia.
  - destruct (Nat.eq_dec j start) as [->|Hne]; [assumption|].
    apply (IH (S start) E). split; [lia|]. lia.
Qed.

Lemma length_filter_index (f : Z -> bool) (l : list Z) (start : nat) :
  length (List.filter (fun k => f (nth (k - start) l 0%Z)) (seq start (length l)))
  = length (List.filter f l).
Proof.
  revert start. induction l as [|x l IH]; intros start; [reflexivity|].
  change (seq start (length (x :: l))) with (start :: seq (S start) (length l)).
  rewrite (filter_ext_in _ (fun k => if k =? start then f x
                                     else f (nth (k - S start) l 0%Z))).
  - simpl. rewrite Nat.eqb_refl.
    rewrite (filter_ext_in (fun k => if k =? start then f x
                                     else f (nth (k - S start) l 0%Z))
               (fun k => f (nth (k - S start) l 0%Z))).
    + destruct (f x); simpl; by rewrite IH.
    + intros k Hk. apply in_seq in Hk.
      destruct (Nat.eqb_spec k start); [lia | reflexivity].
  - intros k [<-|Hk].
    + by rewrite Nat.eqb_refl, Nat.sub_diag.
    + apply in_seq in Hk. destruct (Nat.eqb_spec k start); [lia|].
      replace (k - start) with (S (k - S start)) by lia. reflexivity.
Qed.

Lemma unravel_of_offset (a : ndarray) (p : nat * nat) :
  snd p < ncols a -> unravel a (offset a p) = p.
Proof.
  destruct p as [r c]. unfold unravel, offset. simpl. intros Hc.
  assert (ncols a <> 0) by lia.
  rewrite (Nat.add_comm (r * ncols a) c).
  rewrite Nat.div_add, Nat.Div0.mod_add by assumption.
  rewrite (Nat.div_small c), (Nat.mod_small c) by assumption. reflexivity.
Qed.

Lemma before_offset (a : ndarray) (q p : nat * nat) :
  snd q < ncols a -> before q p -> offset a q < offset a p.
Proof. unfold before, offset. intros Hq [H|[H1 H2]]; nia. Qed.

(** X6.  On a grid that satisfies the invariants, [find_empty] returns the
    first empty cell in row-major order: the cell is in the grid and holds 0,
    and every cell before it is filled.  It returns [None] exactly when no
    cell holds 0. *)
Theorem find_empty_first (s : Sudoku) :
  well_formed s = true ->
  (forall p, find_empty s = Some p ->
     in_grid (n s) p /\ getitem (grid s) p = 0%Z
     /\ forall q, in_grid (n s) q -> before q p -> getitem (grid s) q <> 0%Z)
  /\ (find_empty s = None <->
      forall q, in_grid (n s) q -> getitem (grid s) q <> 0%Z).
Proof.
  intros Hwf. split.
  - intros p Hp. split; [by apply find_empty_in_grid|].
    split; [apply find_empty_Some in Hp; tauto|].
    intros q Hq Hb. unfold find_empty, empty_cells in Hp.
    destruct (List.filter _ _) as [|k ks] eqn:E; [discriminate|].
    simpl in Hp. injection Hp as <-.
    assert (Hlt : offset (grid s) q < k).
    { rewrite <- (unravel_offset (grid s) k). apply before_offset; [|assumption].
      rewrite (wf_ncols s Hwf). apply Hq. }
    pose proof (filter_seq_head _ _ _ _ _ E (offset (grid s) q) ltac:(lia)) as Hf.
    simpl in Hf. apply Z.eqb_neq in Hf. exact Hf.
  - rewrite find_empty_None. by apply complete_spec.
Qed.

(** X7.  On a grid that satisfies the invariants, [empty_cells] lists
    exactly the cells of the grid that hold 0, each once; their number is the
    number of zeros in the array. *)
Theorem empty_cells_spec (s : Sudoku) :
  well_formed s = true ->
  (forall p, In p (empty_cells s) <->
     in_grid (n s) p /\ getitem (grid s) p = 0%Z)
  /\ List.NoDup (empty_cells s)
  /\ length (empty_cells s) = count_empty s.
Proof.
  intros Hwf. pose proof (wf_ncols s Hwf) as Hnc.
  apply well_formed_spec in Hwf as Hw. destruct Hw as [_ [Hlen _]].
  unfold empty_cells. split; [|split].
  - intros p. rewrite in_map_iff. split.
    + intros [k [<- Hk]]. apply filter_In in Hk. destruct Hk as [Hk Hz].
      apply in_seq in Hk. apply Z.eqb_eq in Hz.
      split.
      * unfold unravel, in_grid. simpl. rewrite Hnc. rewrite Hlen in Hk.
        assert (n s <> 0) by (intros E; rewrite E in Hk; lia).
        split; [apply Nat.Div0.div_lt_upper_bound; lia | by apply Nat.mod_upper_bound].
      * unfold getitem. by rewrite unravel_offset.
    + intros [Hp Hz]. exists (offset (grid s) p). split.
      * apply unravel_of_offset. rewrite Hnc. apply Hp.
      * apply filter_In. split; [|by apply Z.eqb_eq].
        apply in_seq. pose proof (offset_in_range s p Hwf Hp). lia.
  - apply NoDup_map_NoDup_ForallPairs.
    + intros j k _ _ E. rewrite <- (unravel_offset (grid s) j), E.
      apply unravel_offset.
    + apply List.NoDup_filter, seq_NoDup.
  - rewrite length_map. unfold count_empty.
    rewrite <- (length_filter_index (fun v => (v =? 0)%Z) (data (grid s)) 0).
    f_equal. apply filter_ext. intros k. by rewrite Nat.sub_0_r.
Qed.

Lemma StronglySorted_filter_lt (f : Z -> bool) (l : list Z) :
  StronglySorted Z.lt l -> StronglySorted Z.lt (List.filter f l).
Proof.
  intros H. induction H as [|x l Hl IH Hx]; simpl; [constructor|].
  destruct (f x); [|assumption]. constructor; [assumption|].
  apply List.Forall_forall. intros y Hy. apply filter_In in Hy.
  destruct Hy as [Hy _]. rewrite List.Forall_forall in Hx. by apply Hx.
Qed.

Lemma StronglySorted_arange (lo hi : nat) : StronglySorted Z.lt (arange lo hi).
Proof.
  unfold arange. generalize (hi - lo). intros len. revert lo.
  induction len as [|len IH]; intros lo; simpl; constructor; [apply IH|].
  apply List.Forall_forall. intros y Hy. apply in_map_iff in Hy.
  destruct Hy as [k [<- Hk]]. apply in_seq in Hk. lia.
Qed.

(** X8.  On a grid that satisfies the invariants and for a cell of the
    grid, [candidates] yields its digits in strictly ascending order, and a
    digit is among them exactly when it lies in [1..n] and no cell of the
    grid in the same row, the same column or the same block holds it. *)
Theorem candidates_ascending (s : Sudoku) (cell : nat * nat) :
  well_formed s = true -> in_grid (n s) cell ->
  StronglySorted Z.lt (candidates s cell)
  /\ forall d, In d (candidates s cell) <->
       (1 <= d <= Z.of_nat (n s))%Z
       /\ forall q, in_grid (n s) q -> related (sr s) cell q ->
            getitem (grid s) q <> d.
Proof.
  intros Hwf Hc. split.
  - unfold candidates. apply StronglySorted_filter_lt, StronglySorted_arange.
  - intros d. by rewrite candidates_spec.
Qed.

(** X9.  On a grid that satisfies the invariants, [box(row, col)] reads
    exactly the [n] cells whose box coordinates are those of [(row, col)],
    each once; so the boxes tile the grid: cells with the same box
    coordinates have the same box. *)
Theorem box_tiles (s : Sudoku) (r c : nat) :
  well_formed s = true -> r < n s -> c < n s ->
  (exists cells,
     box s r c = map (getitem (grid s)) cells /\ List.NoDup cells
     /\ length cells = n s
     /\ forall q, In q cells <->
          in_grid (n s) q /\ fst q / sr s = r / sr s /\ snd q / sr s = c / sr s)
  /\ (forall r' c', r' < n s -> c' < n s ->
        r' / sr s = r / sr s -> c' / sr s = c / sr s -> box s r' c' = box s r c).
Proof.
  intros Hwf Hr Hc. split.
  - exists (rect (r / sr s * sr s) (sr s) (c / sr s * sr s) (sr s)).
    split; [by apply box_rect|]. split; [apply NoDup_rect|].
    split; [rewrite length_rect; symmetry; by apply wf_square|].
    intros q. by apply in_box_unit.
  - intros r' c' Hr' Hc' E1 E2. rewrite !box_rect by assumption.
    by rewrite E1, E2.
Qed.

(** ** Validity is kept *)

Lemma cells_in_range_digits (g : Sudoku) :
  well_formed g = true -> cells_in_range g -> digits_in_range g = true.
Proof.
  intros Hwf Hr. pose proof (wf_ncols g Hwf) as Hnc.
  apply well_formed_spec in Hwf as Hw. destruct Hw as [_ [Hlen _]].
  unfold digits_in_range. apply forallb_forall. intros v Hv.
  apply (In_nth _ _ 0%Z) in Hv. destruct Hv as [k [Hk <-]].
  assert (Hg : in_grid (n g) (unravel (grid g) k)).
  { unfold unravel, in_grid. simpl. rewrite Hnc. rewrite Hlen in Hk.
    assert (n g <> 0) by (intros E; rewrite E in Hk; lia).
    split; [apply Nat.Div0.div_lt_upper_bound; lia | by apply Nat.mod_upper_bound]. }
  specialize (Hr _ Hg). unfold getitem in Hr. rewrite unravel_offset in Hr.
  apply andb_true_iff. rewrite !Z.leb_le. lia.
Qed.

Lemma valid_intro (g : Sudoku) :
  well_formed g = true -> distinct_peers g -> cells_in_range g -> valid g = true.
Proof.
  intros Hwf Hp Hr. unfold valid. rewrite Hwf, (cells_in_range_digits g Hwf Hr).
  simpl. by apply consistent_spec.
Qed.

(** X10.  Validity is kept by the two writes the module performs: storing a
    candidate of a cell into that cell, and emptying a cell. *)
Theorem valid_after_write (g : Sudoku) (p : nat * nat) :
  valid g = true -> in_grid (n g) p ->
  (forall d, In d (candidates g p) -> valid (Sudoku_set g p d) = true)
  /\ valid (Sudoku_set g p 0%Z) = true.
Proof.
  intros Hv Hp. destruct (valid_spec g Hv) as [Hwf [Hd Hr]]. split.
  - intros d Hin. apply candidates_spec in Hin; auto. destruct Hin as [Hrange Hs].
    apply valid_intro.
    + by rewrite well_formed_set.
    + by apply distinct_peers_fill.
    + apply cells_in_range_set; auto. lia.
  - apply valid_intro.
    + by rewrite well_formed_set.
    + by apply distinct_peers_clear.
    + apply cells_in_range_set; auto. lia.
Qed.

(** ** The searches *)

Lemma completion_same (g s1 s2 : Sudoku) :
  completion g s1 -> completion g s2 -> grid s1 = grid s2 -> s1 = s2.
Proof.
  intros [_ [N1 [M1 _]]] [_ [N2 [M2 _]]] E.
  destruct s1 as [g1 n1 m1], s2 as [g2 n2 m2]. simpl in *. congruence.
Qed.

Lemma at_most_one_completions (g : Sudoku) :
  valid g = true ->
  at_most_one g <->
  (forall s1 s2, completion g s1 -> completion g s2 -> s1 = s2).
Proof.
  intros Hv. destruct (valid_spec g Hv) as [Hwf [Hp Hr]]. split.
  - intros H s1 s2 C1 C2. apply (completion_same g); auto.
    apply H; try (by apply completion_fills);
      by apply (completion_complete g).
  - intros H o1 o2 F1 C1 F2 C2. f_equal.
    apply H; by apply fills_complete_completion.
Qed.

Section Searches.
Context {RS : RandomSource}.

(** X11.  On a valid grid [solve_inplace] decides whether a completion
    exists: it returns the grid itself, now a completion of the grid it was
    given, or it returns [None], and then the grid has no completion and is
    left as it was.  Only the object it is called on is written. *)
Theorem solve_inplace_valid (self : nat) (w : world) (g : Sudoku) :
  heap w !! self = Some g -> valid g = true ->
  exists res g' s',
    solve_inplace self w
    = Ok res {| heap := <[self:=g']> (heap w); rand := s' |}
    /\ match res with
       | Some r => r = self /\ completion g g'
       | None => g' = g /\ forall s, ~ completion g s
       end.
Proof.
  intros Hg Hv. destruct w as [h s]. simpl in Hg. cbn [heap].
  destruct (valid_spec g Hv) as [Hwf [Hp Hr]].
  destruct (solve_inplace_spec self h s g Hg) as [res [g' [s' [E P]]]].
  exists res, g', s'. split; [assumption|].
  destruct res as [r|]; simpl in P.
  - destruct P as [-> [Hf Hc]]. split; [reflexivity|].
    apply fills_complete_completion; auto. by apply find_empty_None.
  - destruct P as [-> Hno]. split; [reflexivity|]. intros c Hc.
    apply (Hno Hwf (getitem (grid c))). by apply completion_solution.
Qed.

(** X12.  On a valid grid [is_unique] returns [True] exactly when the grid
    has at most one completion: any two completions are equal.  (A grid
    without completion is reported unique.) *)
Theorem is_unique_valid (self : nat) (w : world) (g : Sudoku) :
  heap w !! self = Some g -> valid g = true ->
  exists b w',
    is_unique self w = Ok b w'
    /\ (b = true <->
        forall s1 s2, completion g s1 -> completion g s2 -> s1 = s2).
Proof.
  intros Hg Hv. destruct w as [h s]. simpl in Hg.
  destruct (valid_spec g Hv) as [Hwf _].
  destruct (is_unique_spec self h s g Hg Hwf) as [extra [b [E Hb]]].
  eexists _, _. split; [exact E|]. rewrite Hb. by apply at_most_one_completions.
Qed.

(** X13.  [is_unique] and [solve_all] agree: on a grid that satisfies the
    invariants, [is_unique] returns [True] exactly when the set returned by
    [solve_all] has at most one member; neither call draws from the random
    source. *)
Theorem is_unique_counts_solve_all (self : nat) (w : world) (g : Sudoku) :
  heap w !! self = Some g -> well_formed g = true ->
  exists b sols w1 w2,
    is_unique self w = Ok b w1 /\ solve_all self w = Ok sols w2
    /\ (b = true <-> length sols <= 1)
    /\ rand w1 = rand w /\ rand w2 = rand w.
Proof.
  intros Hg Hwf. destruct w as [h s]. simpl in Hg.
  destruct (is_unique_spec self h s g Hg Hwf) as [extra [b [E Hb]]].
  destruct (solve_all_spec self h s g Hg Hwf) as [extra' [sols [E' [R [C N]]]]].
  eexists _, _, _, _. split; [exact E|]. split; [exact E'|].
  split; [|by split].
  rewrite Hb. split.
  - intros Hu. destruct (le_lt_dec (length sols) 1) as [|Hlt]; [assumption|].
    exfalso. by apply (two_recorded g (h ++ extra') sols).
  - intros Hlen. by apply (covered_unique g (h ++ extra') sols).
Qed.

(** X14.  [has_solution] and [solve_all] agree on a valid grid:
    [has_solution] returns [True] exactly when the set returned by
    [solve_all] is not empty. *)
Theorem has_solution_iff_solve_all (self : nat) (w : world) (g : Sudoku) :
  heap w !! self = Some g -> valid g = true ->
  exists b sols w1 w2,
    has_solution self w = Ok b w1 /\ solve_all self w = Ok sols w2
    /\ (b = true <-> sols <> []).
Proof.
  intros Hg Hv. destruct w as [h s]. simpl in Hg.
  destruct (valid_spec g Hv) as [Hwf [Hp Hr]].
  destruct (has_solution_run self h s g Hg Hwf) as [res [g' [s' [E P]]]].
  destruct (solve_all_spec self h s g Hg Hwf) as [extra [sols [E' [R [C N]]]]].
  eexists _, _, _, _. split; [exact E|]. split; [exact E'|].
  destruct res as [r|]; simpl in P.
  - destruct P as [_ [Hf Hc]]. split; [|reflexivity]. intros _ ->.
    apply find_empty_None in Hc. by apply (C g' Hf Hc).
  - destruct P as [_ Hno]. split; [discriminate|]. intros Hne. exfalso.
    destruct sols as [|r sols]; [contradiction|].
    apply Forall_cons in R. destruct R as [[_ [Hf Hc]] _].
    apply (Hno Hwf (getitem (grid (nth r (h ++ extra) no_object)))).
    apply completion_solution. by apply fills_complete_completion.
Qed.

End Searches.

(** ** Generation *)

Lemma occupied_in_grid (N : nat) (g : Sudoku) (cell : nat * nat) :
  well_formed g = true -> n g = N -> getitem (grid g) cell <> 0%Z ->
  (0 < N -> in_grid N cell) -> in_grid N cell.
Proof.
  intros Hwf Hn Hz Hin. apply Hin. destruct N; [|lia]. exfalso. apply Hz.
  unfold getitem. apply well_formed_spec in Hwf. destruct Hwf as [_ [Hlen _]].
  rewrite Hn in Hlen. apply nth_overflow. lia.
Qed.

Lemma carved_from_clear (g0 g : Sudoku) (cell : nat * nat) :
  carved_from g0 g -> in_grid (n g0) cell ->
  carved_from g0 (Sudoku_set g cell 0%Z).
Proof.
  intros [Hwf [Hn [Hm Hsub]]] Hc.
  split; [by rewrite well_formed_set|]. split; [assumption|]. split; [assumption|].
  intros q Hq. destruct (decide (cell = q)) as [<-|Hne].
  - left. apply get_set_eq; auto. by rewrite Hn.
  - rewrite get_set_ne; auto; by rewrite Hn.
Qed.

Lemma carved_from_completion (g0 g : Sudoku) :
  carved_from g0 g -> well_formed g0 = true -> solved g0 -> completion g g0.
Proof.
  intros [Hwf [Hn [Hm Hsub]]] Hwf0 Hs.
  split; [assumption|]. split; [by symmetry|]. split; [by symmetry|].
  split; [assumption|]. intros q Hq Hnz. rewrite Hn in Hq.
  destruct (Hsub q Hq) as [E|E]; [contradiction | by symmetry].
Qed.

Section Generation.
Context {RS : RandomSource}.

Lemma remove_cells_invariant (P : nat -> Sudoku -> Prop) (fuel N : nat)
    (h : list Sudoku) (l : list nat) :
  (forall i g cell, P i g -> getitem (grid g) cell <> 0%Z ->
     (0 < N -> in_grid N cell) -> P (S i) (Sudoku_set g cell 0%Z)) ->
  forall (i : nat) (g : Sudoku) (s : rng),
    P i g ->
    match remove_cells fuel (length h) N l {| heap := h ++ [g]; rand := s |} with
    | Ok _ w' => exists g', heap w' = h ++ [g'] /\ P (i + length l) g'
    | Raise _ => False
    | Timeout => True
    end.
Proof.
  intros Hstep. unfold remove_cells. induction l as [|x l IH]; intros i g s Hg.
  - simpl. exists g. split; [reflexivity|]. by rewrite Nat.add_0_r.
  - cbn [for_in]. unfold bind at 1. unfold bind at 1. unfold remove_cell.
    unfold bind at 1.
    pose proof (sample_occupied_sound fuel (length h) N (h ++ [g]) s) as Hs.
    destruct (sample_occupied fuel (length h) N _) as [cell [H' s']| |];
      [|contradiction|exact I].
    destruct Hs as [Hh [Hz Hin]]. simpl in Hh. subst H'.
    rewrite (nth_lookup_Some _ _ _ g (lookup_last h g)) in Hz.
    unfold assign. cbn [heap rand].
    rewrite (obj_lookup _ _ _ _ (lookup_last h g)), insert_last.
    unfold ret at 1.
    specialize (IH (S i) (Sudoku_set g cell 0%Z) s' (Hstep i g cell Hg Hz Hin)).
    destruct (for_in l _ tt _) as [r w'| |]; auto.
    destruct IH as [g' [Hh' Hg']]. exists g'. split; [assumption|].
    simpl. by rewrite Nat.add_succ_r.
Qed.

Lemma generate_result (fuel m : nat) (k : Z) (h : list Sudoku) (s : rng) :
  m * m <= 255 -> (0 <= k <= Z.of_nat ((m * m) ^ 2))%Z ->
  match generate fuel (m * m) k None {| heap := h; rand := s |} with
  | Ok r w' =>
      r = length h /\
      exists g, heap w' = h ++ [g] /\ valid g = true
                /\ count_empty g = Z.to_nat k /\ exists c, completion g c
  | Raise _ => False
  | Timeout => True
  end.
Proof.
  intros Hle Hk.
  unfold generate. unfold bind at 1. unfold empty.
  unfold bind at 1. rewrite (Sudoku_new_zeros m Hle). unfold lift. unfold ret at 1.
  unfold alloc. cbn [heap rand].
  replace (negb _) with false
    by (symmetry; apply negb_false_iff, andb_true_iff; split; apply Z.leb_le; lia).
  unfold bind at 1.
  destruct (solve_empty_grid m h s Hle) as [g1 [s1 [E [Hc [Hcomp Hp]]]]].
  rewrite E. unfold bind at 1.
  destruct Hc as [Hwf1 [Hn1 [Hm1 [Hs1 _]]]]. simpl in Hn1, Hm1.
  pose proof (proj1 (solved_spec g1 Hwf1) Hs1) as [Hfill1 _].
  set (P := fun (i : nat) g =>
              carved_from g1 g /\ distinct_peers g /\ cells_in_range g
              /\ count_empty g = i).
  assert (Hstep : forall i g cell, P i g -> getitem (grid g) cell <> 0%Z ->
            (0 < m * m -> in_grid (m * m) cell) -> P (S i) (Sudoku_set g cell 0%Z)).
  { intros i g cell [Hcf [Hd [Hr Hcount]]] Hz Hin. destruct Hcf as [Hwf [Hn [Hm Hsub]]].
    assert (Hg : in_grid (n g) cell).
    { rewrite Hn, Hn1. apply (occupied_in_grid (m * m) g); auto. congruence. }
    split; [|split; [|split]].
    - apply carved_from_clear; [by repeat split|]. by rewrite <- Hn.
    - by apply distinct_peers_clear.
    - apply cells_in_range_set; auto. lia.
    - rewrite count_empty_clear by assumption. by rewrite Hcount. }
  assert (HP1 : P 0 g1).
  { split; [|split; [|split]]; auto.
    - split; [assumption|]. split; [reflexivity|]. split; [reflexivity|]. auto.
    - intros p Hp'. specialize (Hfill1 p Hp'). lia.
    - by apply complete_count. }
  pose proof (remove_cells_invariant P fuel (m * m) h (seq 0 (Z.to_nat k)) Hstep 0 g1 s1 HP1) as Hs.
  destruct (remove_cells _ _ _ _ _) as [r w'| |]; auto.
  destruct Hs as [g' [Hh [Hcf [Hd [Hr Hcount]]]]]. unfold ret.
  split; [reflexivity|]. exists g'. split; [assumption|].
  split; [apply valid_intro; auto; apply Hcf|].
  split; [by rewrite length_seq in Hcount|].
  exists g1. by apply carved_from_completion.
Qed.

(** X15.  Every grid returned by [generate(n, k)] (no seed grid, perfect
    square [n <= 255], [0 <= k <= n^2]) is a valid grid that has a
    completion: it is a solved grid with cells emptied, so the puzzle can be
    solved. *)
Theorem generate_solvable (fuel m : nat) (k : Z) (w : world) :
  m * m <= 255 -> (0 <= k <= Z.of_nat ((m * m) ^ 2))%Z ->
  match generate fuel (m * m) k None w with
  | Ok r w' =>
      exists g, heap w' !! r = Some g /\ valid g = true
                /\ exists s, completion g s
  | Raise _ => False
  | Timeout => True
  end.
Proof.
  intros Hle Hk. destruct w as [h s].
  pose proof (generate_result fuel m k h s Hle Hk) as H.
  destruct (generate _ _ _ _ _) as [r w'| |]; auto.
  destruct H as [-> [g [Hh [Hv [_ Hc]]]]]. exists g.
  split; [rewrite Hh; apply lookup_last | by split].
Qed.

(** X16.  [generate] with a seed grid that is complete carves the seed: it
    returns a new grid with exactly [k] empty cells whose other cells hold
    the digits of the seed.  The seed's rows, columns and boxes are never
    checked. *)
Theorem generate_seed_carved (fuel : nat) (k : Z) (a : ndarray) (g0 : Sudoku)
    (w : world) :
  Sudoku_new a true = inr g0 -> well_formed g0 = true -> complete g0 ->
  (0 <= k <= Z.of_nat (n g0 ^ 2))%Z ->
  match generate fuel (n g0) k (Some a) w with
  | Ok r w' =>
      r = length (heap w) /\
      exists g, heap w' = heap w ++ [g] /\ count_empty g = Z.to_nat k
                /\ carved_from g0 g
  | Raise _ => False
  | Timeout => True
  end.
Proof.
  intros Hnew Hwf0 Hcomp Hk. destruct w as [h s].
  unfold generate. unfold bind at 1. unfold bind at 1. rewrite Hnew.
  unfold lift. unfold ret at 1.
  rewrite (proj2 (find_empty_None g0) Hcomp). unfold alloc. cbn [heap rand].
  replace (negb _) with false
    by (symmetry; apply negb_false_iff, andb_true_iff; split; apply Z.leb_le; lia).
  unfold bind at 1. rewrite solve_inplace_complete
    by (rewrite (obj_lookup _ _ _ _ (lookup_last h g0)); assumption).
  unfold bind at 1.
  set (P := fun (i : nat) g => carved_from g0 g /\ count_empty g = i).
  assert (Hstep : forall i g cell, P i g -> getitem (grid g) cell <> 0%Z ->
            (0 < n g0 -> in_grid (n g0) cell) -> P (S i) (Sudoku_set g cell 0%Z)).
  { intros i g cell [Hcf Hcount] Hz Hin.
    assert (Hg : in_grid (n g0) cell).
    { destruct Hcf as [Hwf [Hn _]]. by apply (occupied_in_grid (n g0) g). }
    split; [by apply carved_from_clear|].
    rewrite count_empty_clear by assumption. by rewrite Hcount. }
  assert (HP0 : P 0 g0).
  { split; [|by apply complete_count].
    split; [assumption|]. split; [reflexivity|]. split; [reflexivity|]. auto. }
  pose proof (remove_cells_invariant P fuel (n g0) h (seq 0 (Z.to_nat k)) Hstep 0 g0 s HP0) as Hs.
  destruct (remove_cells _ _ _ _ _) as [r w'| |]; auto.
  destruct Hs as [g' [Hh [Hcf Hcount]]]. unfold ret. split; [reflexivity|].
  exists g'. split; [assumption|]. rewrite length_seq in Hcount. by split.
Qed.


Lemma complete_unique_completion (g : Sudoku) :
  valid g = true -> count_empty g = 0 ->
  completion g g /\ forall s, completion g s -> s = g.
Proof.
  intros Hv Hz. destruct (valid_spec g Hv) as [Hwf [Hp Hr]].
  assert (Hc : complete g).
  { apply find_empty_None. destruct (find_empty g) as [p|] eqn:He; [|reflexivity].
    pose proof (count_empty_fill g p 1%Z He ltac:(lia)). lia. }
  split.
  - apply fills_complete_completion; auto. apply fills_refl.
  - intros s [Hs [Hn [Hm [_ Ha]]]]. apply (Sudoku_ext g s); auto.
    intros p Hp'. apply Ha; auto. rewrite complete_spec in Hc by assumption.
    by apply Hc.
Qed.

Lemma generate_unique_loop_result (gfuel m : nat) (k : Z) (limit : Z) (fuel : nat) :
  m * m <= 255 -> (0 <= k <= Z.of_nat ((m * m) ^ 2))%Z ->
  forall (attempts : Z) (w : world),
    match generate_unique_loop fuel gfuel attempts (m * m) k None limit w with
    | Ok r w' =>
        exists g, heap w' !! r = Some g /\ valid g = true
                  /\ count_empty g = Z.to_nat k
                  /\ exists c, completion g c /\ forall c', completion g c' -> c' = c
    | Raise e => e = GenerationExhausted
    | Timeout => True
    end.
Proof.
  intros Hle Hk. induction fuel as [|fuel IH]; intros attempts w; [exact I|].
  cbn [generate_unique_loop]. destruct (attempts + 1 >=? limit)%Z; [reflexivity|].
  destruct w as [h s]. unfold bind at 1.
  pose proof (generate_result gfuel m k h s Hle Hk) as Hgen.
  destruct (generate gfuel (m * m) k None _) as [r [h1 s1]| |]; [|contradiction|exact I].
  destruct Hgen as [-> [g [Hh [Hv [Hcount [c Hc]]]]]]. simpl in Hh. subst h1.
  destruct (Z.eqb_spec k 0) as [->|Hk0].
  - unfold ret. exists g. split; [apply lookup_last|]. split; [assumption|].
    split; [assumption|]. exists g. by apply complete_unique_completion.
  - unfold bind at 1. destruct (valid_spec g Hv) as [Hwf _].
    destruct (is_unique_spec (length h) (h ++ [g]) s1 g (lookup_last h g) Hwf)
      as [extra [b [E Hb]]].
    rewrite E. destruct b.
    + unfold ret. exists g. split.
      { cbn [heap]. rewrite lookup_app_l; [apply lookup_last|].
        rewrite length_app. simpl. lia. }
      split; [assumption|]. split; [assumption|]. exists c. split; [assumption|].
      intros c' Hc'. apply (proj1 (at_most_one_completions g Hv)); auto.
      by apply Hb.
    + apply IH.
Qed.

(** X18.  A grid returned by [generate_unique(n, k)] (no seed grid, perfect
    square [n <= 255], [0 <= k <= n^2]) is a valid grid with exactly [k]
    empty cells and exactly one completion; the only failure of
    [generate_unique] is [GenerationExhausted]. *)
Theorem generate_unique_result (fuel m : nat) (k limit : Z) (w : world) :
  m * m <= 255 -> (0 <= k <= Z.of_nat ((m * m) ^ 2))%Z ->
  match generate_unique fuel (m * m) k None limit w with
  | Ok r w' =>
      exists g, heap w' !! r = Some g /\ valid g = true
                /\ count_empty g = Z.to_nat k
                /\ exists c, completion g c /\ forall c', completion g c' -> c' = c
  | Raise e => e = GenerationExhausted
  | Timeout => True
  end.
Proof.
  intros Hle Hk. unfold generate_unique.
  by apply generate_unique_loop_result.
Qed.

End Generation.

Lemma empty_grid_valid (m : nat) : m * m <= 255 -> valid (empty_grid m) = true.
Proof.
  intros Hle. apply valid_intro.
  - by apply empty_grid_wf.
  - intros p q _ _ _ _ Hnz. exfalso. apply Hnz. apply empty_grid_zero.
  - intros p _. rewrite empty_grid_zero. simpl. lia.
Qed.

Section Further.
Context {RS : RandomSource}.

(** X19.  [Sudoku.empty(n)] creates, for a perfect square [n <= 255], a new
    valid [n]x[n] grid whose cells are all 0, with [sr] the square root of
    [n], and leaves the existing objects and the random source alone; for an
    [n <= 255] that is not a perfect square it fails with
    [NotPerfectSquare]. *)
Theorem empty_spec (n0 : nat) (w : world) :
  (forall m, n0 = m * m -> m * m <= 255 ->
     exists g,
       empty n0 w = Ok (length (heap w)) {| heap := heap w ++ [g]; rand := rand w |}
       /\ valid g = true /\ shape (grid g) = [n0; n0] /\ n g = n0 /\ sr g = m
       /\ forall p, getitem (grid g) p = 0%Z)
  /\ (n0 <= 255 -> (forall m, n0 <> m * m) ->
      empty n0 w = Raise NotPerfectSquare).
Proof.
  split.
  - intros m -> Hle. exists (empty_grid m). unfold empty, bind.
    rewrite (Sudoku_new_zeros m Hle). split; [reflexivity|].
    split; [by apply empty_grid_valid|]. repeat split. apply empty_grid_zero.
  - intros _ Hsq. unfold empty, bind, Sudoku_new.
    by rewrite (Sudoku_view_not_square _ n0).
Qed.


End Further.

(** X21.  Whether [solve_inplace] finds a completion of a valid grid does
    not depend on the random source: two runs on the same grid, with any two
    sources in any states, both return a grid or both return [None]. *)
Theorem solve_inplace_success_independent (RS1 RS2 : RandomSource)
    (self1 self2 : nat) (w1 : @world RS1) (w2 : @world RS2) (g : Sudoku) :
  heap w1 !! self1 = Some g -> heap w2 !! self2 = Some g -> valid g = true ->
  exists res1 w1' res2 w2',
    solve_inplace self1 w1 = Ok res1 w1' /\ solve_inplace self2 w2 = Ok res2 w2'
    /\ (res1 = None <-> res2 = None).
Proof.
  intros H1 H2 Hv. destruct w1 as [h1 s1], w2 as [h2 s2]. simpl in H1, H2.
  destruct (valid_spec g Hv) as [Hwf [Hp Hr]].
  destruct (solve_inplace_spec self1 h1 s1 g H1) as [res1 [g1 [t1 [E1 P1]]]].
  destruct (solve_inplace_spec self2 h2 s2 g H2) as [res2 [g2 [t2 [E2 P2]]]].
  eexists _, _, _, _. split; [exact E1|]. split; [exact E2|].
  assert (Hsol : forall g', fills g g' -> find_empty g' = None ->
                   solution_of g (getitem (grid g'))).
  { intros g' Hf Hc. apply completion_solution.
    apply fills_complete_completion; auto. by apply find_empty_None. }
  destruct res1 as [r1|], res2 as [r2|]; simpl in P1, P2;
    try (split; congruence).
  - destruct P1 as [_ [Hf Hc]], P2 as [_ Hno]. exfalso.
    by apply (Hno Hwf _ (Hsol g1 Hf Hc)).
  - destruct P2 as [_ [Hf Hc]], P1 as [_ Hno]. exfalso.
    by apply (Hno Hwf _ (Hsol g2 Hf Hc)).
Qed.

(** ** Equality of objects *)

(** X22.  On grids that satisfy the invariants, [==] (which compares the two
    arrays with [numpy.array_equal] and never looks at [n] or [sr]) holds
    exactly when the two objects are equal, attributes included. *)
Theorem Sudoku_eq_objects (a b : Sudoku) :
  well_formed a = true -> well_formed b = true ->
  (Sudoku_eq a b = true <-> a = b).
Proof.
  intros Ha Hb. split.
  - unfold Sudoku_eq, array_equal. rewrite andb_true_iff, !bool_decide_eq_true.
    intros [Hs Hd].
    apply well_formed_spec in Ha, Hb.
    destruct Ha as [Sa [_ [Na _]]], Hb as [Sb [_ [Nb _]]].
    destruct a as [[sa da] na ma], b as [[sb db] nb mb]. simpl in *.
    subst sa sb da. injection Hs as Hn _. subst nb na.
    assert (ma = mb) by nia. by subst.
  - intros <-. unfold Sudoku_eq, array_equal.
    by rewrite andb_true_iff, !bool_decide_eq_true.
Qed.

(** ** The further properties at concrete inputs *)

Lemma construct_shape_errors_witness :
  Sudoku_new {| shape := []; data := [7]%Z |} true = inl IndexError
  /\ Sudoku_new {| shape := [3]; data := [1; 2; 3]%Z |} true = inl InvalidShape
  /\ Sudoku_new {| shape := [2; 3]; data := [9; 9; 9; 9; 9; 9]%Z |} true = inl InvalidShape
  /\ Sudoku_new {| shape := [2; 2]; data := [9; 9; 9; 9]%Z |} true = inl NotPerfectSquare.
Proof.
  split; [|split; [|split]].
  - apply (proj1 (construct_shape_errors {| shape := []; data := [7]%Z |}
                    ltac:(cbv; lia))).
    reflexivity.
  - apply (proj1 (proj2 (construct_shape_errors {| shape := [3]; data := [1; 2; 3]%Z |}
                           ltac:(cbv; lia))));
      simpl; [discriminate | lia].
  - apply (proj1 (proj2 (proj2 (construct_shape_errors
             {| shape := [2; 3]; data := [9; 9; 9; 9; 9; 9]%Z |}
             ltac:(cbv; lia)))) 2 3);
      [reflexivity | lia].
  - apply (proj2 (proj2 (proj2 (construct_shape_errors
             {| shape := [2; 2]; data := [9; 9; 9; 9]%Z |}
             ltac:(cbv; lia)))) 2);
      [reflexivity|].
    intros m. destruct m as [|[|[|m]]]; simpl; lia.
Defined.

Lemma construct_checks_converted_cells_witness :
  Sudoku_new {| shape := [1; 1]; data := [-255]%Z |} true
  = inr {| grid := {| shape := [1; 1]; data := [1]%Z |}; n := 1; sr := 1 |}.
Proof.
  apply (proj1 (construct_checks_converted_cells
                  {| shape := [1; 1]; data := [-255]%Z |} 1 1 eq_refl eq_refl ltac:(lia))).
  intros v [<-|[]]. vm_compute. discriminate.
Defined.

Lemma construct_round_trip_witness :
  Sudoku_new (grid one_gap) true = inr one_gap /\ Sudoku_copy one_gap = inr one_gap
  /\ Sudoku_eq one_gap one_gap = true.
Proof.
  apply (construct_round_trip one_gap); vm_compute; reflexivity.
Defined.

Lemma safe_checks_spec_witness :
  row_safe one_gap 3 4%Z = false
  /\ (col_safe one_gap 3 1%Z = true <->
      forall r', r' < 4 -> getitem (grid one_gap) (r', 3) <> 1%Z).
Proof.
  split; [reflexivity|].
  apply (proj1 (proj2 (safe_checks_spec one_gap 3 3 1%Z eq_refl
                         ltac:(simpl; lia) ltac:(simpl; lia)))).
Defined.

Lemma is_safe_own_value_witness :
  is_safe one_gap 0 1 (getitem (grid one_gap) (0, 1)) = false.
Proof.
  apply (is_safe_own_value one_gap 0 1); [reflexivity | simpl; lia | simpl; lia].
Defined.

Lemma find_empty_first_witness :
  in_grid 4 (3, 3) /\ getitem (grid one_gap) (3, 3) = 0%Z
  /\ forall q, in_grid 4 q -> before q (3, 3) -> getitem (grid one_gap) q <> 0%Z.
Proof.
  apply (proj1 (find_empty_first one_gap eq_refl) (3, 3)). reflexivity.
Defined.

Lemma empty_cells_spec_witness :
  (forall p, In p (empty_cells bad_grid) <->
     in_grid 4 p /\ getitem (grid bad_grid) p = 0%Z)
  /\ List.NoDup (empty_cells bad_grid)
  /\ length (empty_cells bad_grid) = 12.
Proof. apply (empty_cells_spec bad_grid). reflexivity. Defined.

Lemma candidates_ascending_witness :
  StronglySorted Z.lt (candidates one_gap (3, 3))
  /\ forall d, In d (candidates one_gap (3, 3)) <->
       (1 <= d <= Z.of_nat 4)%Z
       /\ forall q, in_grid 4 q -> related 2 (3, 3) q ->
            getitem (grid one_gap) q <> d.
Proof.
  apply (candidates_ascending one_gap (3, 3)); [reflexivity | split; simpl; lia].
Defined.

Lemma box_tiles_witness :
  (exists cells,
     box one_gap 3 0 = map (getitem (grid one_gap)) cells /\ List.NoDup cells
     /\ length cells = 4
     /\ forall q, In q cells <->
          in_grid 4 q /\ fst q / 2 = 3 / 2 /\ snd q / 2 = 0 / 2)
  /\ (forall r' c', r' < 4 -> c' < 4 -> r' / 2 = 3 / 2 -> c' / 2 = 0 / 2 ->
        box one_gap r' c' = box one_gap 3 0).
Proof.
  apply (box_tiles one_gap 3 0 eq_refl ltac:(simpl; lia) ltac:(simpl; lia)).
Defined.

Lemma valid_after_write_witness :
  (forall d, In d (candidates one_gap (3, 3)) ->
     valid (Sudoku_set one_gap (3, 3) d) = true)
  /\ valid (Sudoku_set one_gap (3, 3) 0%Z) = true.
Proof.
  apply (valid_after_write one_gap (3, 3)); [reflexivity | split; simpl; lia].
Defined.

Lemma solve_inplace_valid_witness :
  exists res g' s',
    solve_inplace 0 (holding one_gap)
    = Ok res (@mk_world walk_source (<[0:=g']> [one_gap]) s')
    /\ match res with
       | Some r => r = 0 /\ completion one_gap g'
       | None => g' = one_gap /\ forall s, ~ completion one_gap s
       end.
Proof.
  apply (solve_inplace_valid 0 (holding one_gap) one_gap);
    [reflexivity | vm_compute; reflexivity].
Defined.

Lemma is_unique_valid_witness :
  exists b w',
    is_unique 0 (holding one_gap) = Ok b w'
    /\ (b = true <->
        forall s1 s2, completion one_gap s1 -> completion one_gap s2 -> s1 = s2).
Proof.
  apply (is_unique_valid 0 (holding one_gap) one_gap);
    [reflexivity | vm_compute; reflexivity].
Defined.

Lemma is_unique_counts_solve_all_witness :
  exists b sols w1 w2,
    is_unique 0 (holding bad_grid) = Ok b w1
    /\ solve_all 0 (holding bad_grid) = Ok sols w2
    /\ (b = true <-> length sols <= 1)
    /\ rand w1 = rand (holding bad_grid) /\ rand w2 = rand (holding bad_grid).
Proof.
  apply (is_unique_counts_solve_all 0 (holding bad_grid) bad_grid);
    [reflexivity | vm_compute; reflexivity].
Defined.

Lemma has_solution_iff_solve_all_witness :
  exists b sols w1 w2,
    has_solution 0 (holding bad_grid) = Ok b w1
    /\ solve_all 0 (holding bad_grid) = Ok sols w2
    /\ (b = true <-> sols <> []).
Proof.
  apply (has_solution_iff_solve_all 0 (holding bad_grid) bad_grid);
    [reflexivity | vm_compute; reflexivity].
Defined.

Lemma generate_solvable_witness :
  exists r w',
    generate 20 (2 * 2) 5 None start = Ok r w'
    /\ exists g, heap w' !! r = Some g /\ valid g = true
                 /\ exists s, completion g s.
Proof.
  assert (H := generate_solvable 20 2 5 start ltac:(simpl; lia) ltac:(simpl; lia)).
  destruct (generate 20 (2 * 2) 5 None start) as [r w'|e|] eqn:E;
    [| contradiction | discriminate (eq_trans (eq_sym E) ltac:(vm_compute; reflexivity))].
  exists r, w'. by split.
Defined.

Lemma generate_seed_carved_witness :
  exists r w',
    generate 20 4 3 (Some (grid ones_grid)) start = Ok r w'
    /\ r = 0
    /\ exists g, heap w' = [] ++ [g] /\ count_empty g = 3
                 /\ carved_from ones_grid g.
Proof.
  assert (H := generate_seed_carved 20 3 (grid ones_grid) ones_grid start
                 ltac:(reflexivity) ltac:(reflexivity)
                 ltac:(apply find_empty_None; reflexivity) ltac:(simpl; lia)).
  change (n ones_grid) with 4 in H. change (heap start) with (@nil Sudoku) in H.
  change (Z.to_nat 3) with 3 in H. change (length (@nil Sudoku)) with 0 in H.
  destruct (generate 20 4 3 (Some (grid ones_grid)) start) as [r w'|e|] eqn:E;
    [| contradiction | discriminate (eq_trans (eq_sym E) ltac:(vm_compute; reflexivity))].
  exists r, w'. by split.
Defined.


Lemma generate_unique_result_witness :
  exists r w',
    generate_unique 20 (2 * 2) 3 None 50 start = Ok r w'
    /\ exists g, heap w' !! r = Some g /\ valid g = true
                 /\ count_empty g = 3
                 /\ exists c, completion g c /\ forall c', completion g c' -> c' = c.
Proof.
  assert (H := generate_unique_result 20 2 3 50 start
                 ltac:(simpl; lia) ltac:(simpl; lia)).
  change (Z.to_nat 3) with 3 in H.
  destruct (generate_unique 20 (2 * 2) 3 None 50 start) as [r w'|e|] eqn:E;
    [| discriminate (eq_trans (eq_sym E) ltac:(vm_compute; reflexivity))
     | discriminate (eq_trans (eq_sym E) ltac:(vm_compute; reflexivity))].
  exists r, w'. by split.
Defined.

Lemma empty_spec_witness :
  (exists g,
     empty 4 start = Ok 0 (@mk_world walk_source ([] ++ [g]) 0)
     /\ valid g = true /\ shape (grid g) = [4; 4] /\ n g = 4 /\ sr g = 2
     /\ forall p, getitem (grid g) p = 0%Z)
  /\ empty 5 start = Raise NotPerfectSquare.
Proof.
  split.
  - apply (proj1 (empty_spec 4 start) 2); [reflexivity | lia].
  - apply (proj2 (empty_spec 5 start)); [lia|].
    intros m. destruct m as [|[|[|m]]]; simpl; lia.
Defined.


Lemma solve_inplace_success_independent_witness :
  exists res1 w1' res2 w2',
    solve_inplace 0 (holding one_gap) = Ok res1 w1'
    /\ solve_inplace 0 (@mk_world stuck_source [one_gap] tt) = Ok res2 w2'
    /\ (res1 = None <-> res2 = None).
Proof.
  apply (solve_inplace_success_independent walk_source stuck_source 0 0
           (holding one_gap) (@mk_world stuck_source [one_gap] tt) one_gap);
    [reflexivity | reflexivity | vm_compute; reflexivity].
Defined.

Lemma Sudoku_eq_objects_witness :
  Sudoku_eq one_gap bad_grid = true <-> one_gap = bad_grid.
Proof.
  apply (Sudoku_eq_objects one_gap bad_grid); vm_compute; reflexivity.
Defined.
